(** * ntgo: the typed-value wire codec of entry.go

    A shallow embedding of [entry.go] (package [ntgo]) and the properties of
    its decoders, builders, in-place updates and bounded arrays.

    Conventions of the embedding.
    - A Go [byte]/[uint8] is a [Byte.byte]; a [uint32] or a [float64] bit
      pattern is an [N] with the wrap-around written out.
    - An [io.Reader] is the list of bytes it still has to deliver; reading
      removes bytes from its front.
    - A Go pointer [*ValueT] is an address into a store of [ValueT] structs
      (one store per struct type, as Go's typing keeps them apart), or [Nil].
      Two pointers with the same address are the same object.
    - A Go function returning [(value, error)] returns an [outcome]: [Ok v]
      when the error is [nil], [Err e] when the value is [nil] and the error
      is [e], and [Panic] for a run-time panic (nil dereference). *)

From Stdlib Require Import Strings.String Strings.Byte.
From Stdlib Require Import NArith List Lia Bool.
From stdpp Require Import base list.
Import ListNotations.

(** ** Errors *)

(** The error values of [entry.go], the two of package [io] that its reads
    can return, and the three of package [mergo] (imported by [entry.go])
    that [MergeWithOverwrite] can return. *)
Inductive error : Type :=
| ErrEntryTypeCastInvalid
| ErrEntryCastInvalid
| ErrEntryNoSuchType
| ErrEntryDataInvalid
| ErrArrayIndexOutOfBounds
| ErrArrayOutOfSpace
| ErrEntryFlagNoSuchType
| EOF
| ErrUnexpectedEOF
| ErrNilArguments
| ErrDifferentArgumentsTypes
| ErrNotSupported.

Inductive outcome (A : Type) : Type :=
| Ok (a : A)
| Err (e : error)
| Panic.
Arguments Ok {A} a.
Arguments Err {A} e.
Arguments Panic {A}.

(** ** Machine integers *)

Definition uint8 (n : nat) : nat := n mod 256.
Definition uint32 (n : N) : N := (n mod 2 ^ 32)%N.
Definition uint64 (n : N) : N := (n mod 2 ^ 64)%N.

(** [byte(n)]: the conversion of an integer to a byte keeps the low 8 bits. *)
Definition byte_of_N (n : N) : byte :=
  match Byte.of_N (n mod 256) with
  | Some b => b
  | None => x00
  end.

Definition byte_of_nat (n : nat) : byte := byte_of_N (N.of_nat n).

(** ** Pointers, stores and the reader *)

Definition Reader := list byte.

Inductive ptr : Type :=
| Nil
| Addr (a : nat).

Record State (T : Type) : Type := mkState {
  rd : Reader;      (* what the io.Reader [r] has not delivered yet *)
  mem : list T      (* the allocated structs of type T, by address *)
}.
Arguments mkState {T} rd mem.
Arguments rd {T} s.
Arguments mem {T} s.

(** A computation that may read from [r], allocate and mutate structs, and
    end with a value, an error or a panic.  The state reached is kept also
    when it fails: bytes already read stay read. *)
Definition M (T A : Type) : Type := State T -> outcome A * State T.

Definition ret {T A} (a : A) : M T A := fun s => (Ok a, s).

Definition bind {T A B} (m : M T A) (k : A -> M T B) : M T B :=
  fun s =>
    match m s with
    | (Ok a, s') => k a s'
    | (Err e, s') => (Err e, s')
    | (Panic, s') => (Panic, s')
    end.

Definition fail {T A} (e : error) : M T A := fun s => (Err e, s).
Definition panic {T A} : M T A := fun s => (Panic, s).

Notation "x <- m ;; k" := (bind m (fun x => k))
  (at level 100, m at next level, right associativity).

(** [&T{...}]: a fresh object, at the first unused address. *)
Definition alloc {T} (v : T) : M T ptr :=
  fun s => (Ok (Addr (length (mem s))), mkState (rd s) (mem s ++ [v])).

(** [*p]: reading through a pointer; the nil pointer panics. *)
Definition load {T} (p : ptr) : M T T :=
  fun s =>
    match p with
    | Nil => (Panic, s)
    | Addr a =>
        match mem s !! a with
        | Some v => (Ok v, s)
        | None => (Panic, s)
        end
    end.

(** [*p = v]: writing through a pointer; the nil pointer panics. *)
Definition store {T} (p : ptr) (v : T) : M T unit :=
  fun s =>
    match p with
    | Nil => (Panic, s)
    | Addr a =>
        match mem s !! a with
        | Some _ => (Ok tt, mkState (rd s) (<[a := v]> (mem s)))
        | None => (Panic, s)
        end
    end.

(** [r.Read(buf)] with [len(buf) = 1] on an in-memory reader: one byte, or
    [io.EOF] when nothing is left. *)
Definition Read1 {T} : M T byte :=
  fun s =>
    match rd s with
    | [] => (Err EOF, s)
    | b :: r => (Ok b, mkState r (mem s))
    end.

(** [io.ReadFull(r, buf)] with [len(buf) = n]: exactly [n] bytes; [io.EOF]
    when no byte could be read, [io.ErrUnexpectedEOF] when the reader ends
    after some but not all of them.  With [n = 0] nothing is read. *)
Definition ReadFull {T} (n : nat) : M T (list byte) :=
  fun s =>
    if Nat.eqb n 0 then (Ok [], s)
    else if Nat.eqb (length (rd s)) 0 then (Err EOF, s)
    else if Nat.ltb (length (rd s)) n then (Err ErrUnexpectedEOF, mkState [] (mem s))
    else (Ok (take n (rd s)), mkState (drop n (rd s)) (mem s)).

(** ** The variable-length integer codec *)

(** Modelled from the spec: [EncodeULEB128], defined in a file of the
    repository other than [entry.go].  Section 4.1: the minimal unsigned
    LEB128 encoding of a [uint32], 7 data bits per byte, least significant
    group first, the continuation bit (0x80) set on all but the last byte.
    A [uint32] has at most five 7-bit groups, so the loop body runs at most
    five times. *)
Fixpoint encodeLoop (fuel : nat) (value : N) : list byte :=
  match fuel with
  | O => []
  | S fuel' =>
      let group := N.land value 0x7f in
      let remaining := N.shiftr value 7 in
      if N.eqb remaining 0 then [byte_of_N group]
      else byte_of_N (N.lor group 0x80) :: encodeLoop fuel' remaining
  end.

Definition EncodeULEB128 (value : N) : list byte :=
  encodeLoop 5 (uint32 value).

(** Modelled from the spec: [DecodeAndSaveULEB128], defined in a file of the
    repository other than [entry.go].  Section 4.1: reads bytes until one
    with the continuation bit clear, accumulating the 7-bit groups least
    significant first into a [uint32], and returns the value together with
    the raw bytes consumed; the number of groups is not bounded (groups
    shifted past bit 31 are lost); the reader ending before a terminating
    byte is a read error. *)
Fixpoint decodeLoop (r : Reader) (result shift : N) (saved : list byte)
  : outcome (N * list byte) * Reader :=
  match r with
  | [] => (Err EOF, [])
  | b :: r' =>
      let result' :=
        uint32 (N.lor result (N.shiftl (N.land (Byte.to_N b) 0x7f) shift)) in
      if N.eqb (N.land (Byte.to_N b) 0x80) 0
      then (Ok (result', saved ++ [b]), r')
      else decodeLoop r' result' (shift + 7)%N (saved ++ [b])
  end.

Definition DecodeAndSaveULEB128 {T} : M T (N * list byte) :=
  fun s =>
    let '(o, r) := decodeLoop (rd s) 0 0 [] in
    (o, mkState r (mem s)).

(** ** The 8-byte float codec *)

(** A [float64] is represented by its IEEE-754 bit pattern
    ([math.Float64bits]), a 64-bit unsigned integer. *)
Definition float64 := N.

(** [binary.BigEndian.PutUint64] and [binary.BigEndian.Uint64]. *)
Fixpoint PutUint (n : nat) (v : N) : list byte :=
  match n with
  | O => []
  | S n' => PutUint n' (N.shiftr v 8) ++ [byte_of_N v]
  end.

Definition Uint (data : list byte) : N :=
  fold_left (fun acc b => (acc * 256 + Byte.to_N b)%N) data 0%N.

(** Modelled from the spec: [Float64ToBytes] and [BytesToFloat64], defined
    in a file of the repository other than [entry.go].  Sections 4.2 and 6:
    the wire form of a Double is exactly 8 bytes holding the IEEE-754
    pattern in a fixed byte order, big-endian as all integers of the wire
    format. *)
Definition Float64ToBytes (f : float64) : list byte := PutUint 8 (uint64 f).
Definition BytesToFloat64 (data : list byte) : float64 := Uint data.

(** ** mergo.MergeWithOverwrite *)

(** [entry.go] updates objects in place with [mergo.MergeWithOverwrite(dst,
    src)] of the library github.com/imdario/mergo.  The library is not part
    of the repository; the definitions below follow its documented
    behaviour for the two shapes of call [entry.go] makes.

    - The destination must be a pointer to a struct (or a map): the library
      takes [reflect.ValueOf(dst).Elem()] and returns [ErrNotSupported]
      unless its kind is [Struct] or [Map].  A source that is a pointer is
      dereferenced.
    - Fields are merged one by one; a destination field is overwritten by
      the source field only when the source field is not the empty (zero)
      value of its type: [false], [0], the empty string and a slice of
      length 0 are empty and never overwrite. *)

Inductive Kind : Type := KStruct | KPtr | KInvalid.

(** The [dst] argument: a [*T], or a [**T] (the address of a pointer
    variable, here the slot [index] of an [elements] slice). *)
Inductive mergeDst : Type :=
| DstStruct (p : ptr)
| DstPointer (slot : nat).

(** The [src] argument: a struct [T], or a [*T]. *)
Inductive mergeSrc (T : Type) : Type :=
| SrcStruct (v : T)
| SrcPointer (p : ptr).
Arguments SrcStruct {T} v.
Arguments SrcPointer {T} p.

(** The kind of [reflect.ValueOf(dst).Elem()]. *)
Definition dstKind (dst : mergeDst) : Kind :=
  match dst with
  | DstStruct Nil => KInvalid
  | DstStruct (Addr _) => KStruct
  | DstPointer _ => KPtr
  end.

(** [isEmptyValue] of mergo, per kind of field. *)
Class Empty (A : Type) := isEmptyValue : A -> bool.

#[global] Instance Empty_bool : Empty bool := fun b => negb b.
#[global] Instance Empty_string : Empty string :=
  fun s => Nat.eqb (String.length s) 0.
#[global] Instance Empty_slice : Empty (list byte) :=
  fun l => Nat.eqb (length l) 0.

(** The default case of mergo's [deepMerge], for a settable field of a
    basic kind. *)
Definition mergeField {A} `{Empty A} (overwrite : bool) (dst src : A) : A :=
  if negb (isEmptyValue src) && (overwrite || isEmptyValue dst) then src else dst.

(** The [Struct] case of [deepMerge]: field by field. *)
Class Struct (T : Type) := deepMerge : bool -> T -> T -> T.

Definition merge {T} `{Struct T} (dst : mergeDst) (src : mergeSrc T)
    (overwrite : bool) : M T unit :=
  match dstKind dst, dst with
  | KStruct, DstStruct p =>
      d <- load p ;;
      v <- match src with
           | SrcStruct v => ret v
           | SrcPointer q => load q
           end ;;
      store p (deepMerge overwrite d v)
  | _, _ => fail ErrNotSupported
  end.

Definition MergeWithOverwrite {T} `{Struct T} (dst : mergeDst) (src : mergeSrc T)
  : M T unit :=
  merge dst src true.

(** ** Scalar values *)

(** Every value struct has a [RawValue] field, its wire bytes. *)
Class HasRaw (T : Type) := RawValue : T -> list byte.

Definition BoolFalse : byte := x00.
Definition BoolTrue : byte := x01.

(** *** ValueBoolean *)

Record ValueBoolean : Type := mkValueBoolean {
  BooleanValue : bool;
  BooleanRawValue : list byte
}.

#[global] Instance HasRaw_ValueBoolean : HasRaw ValueBoolean := BooleanRawValue.
#[global] Instance Struct_ValueBoolean : Struct ValueBoolean :=
  fun overwrite dst src =>
    mkValueBoolean
      (mergeField overwrite (BooleanValue dst) (BooleanValue src))
      (mergeField overwrite (BooleanRawValue dst) (BooleanRawValue src)).

Definition DecodeBoolean : M ValueBoolean ptr :=
  val <- ReadFull 1 ;;
  entry <- alloc (mkValueBoolean false val) ;;
  match val with
  | [] => panic
  | b :: _ =>
      if Byte.eqb b BoolFalse then
        _ <- store entry (mkValueBoolean false val) ;;
        ret entry
      else if Byte.eqb b BoolTrue then
        _ <- store entry (mkValueBoolean true val) ;;
        ret entry
      else fail ErrEntryDataInvalid
  end.

Definition BuildBoolean (value : bool) : M ValueBoolean ptr :=
  let rawValue := if value then [BoolTrue] else [BoolFalse] in
  alloc (mkValueBoolean value rawValue).

Definition ValueBoolean_UpdateRaw (entry : ptr) : M ValueBoolean unit :=
  newEntry <- DecodeBoolean ;;
  v <- load newEntry ;;
  MergeWithOverwrite (DstStruct entry) (SrcStruct v).

Definition ValueBoolean_GetRaw (entry : ptr) : M ValueBoolean (list byte) :=
  v <- load entry ;;
  ret (BooleanRawValue v).

Definition ValueBoolean_UpdateValue (entry : ptr) (value : bool)
  : M ValueBoolean unit :=
  newEntry <- BuildBoolean value ;;
  v <- load newEntry ;;
  MergeWithOverwrite (DstStruct entry) (SrcStruct v).

(** *** ValueString *)

Record ValueString : Type := mkValueString {
  StringValue : string;
  StringRawValue : list byte
}.

#[global] Instance HasRaw_ValueString : HasRaw ValueString := StringRawValue.
#[global] Instance Struct_ValueString : Struct ValueString :=
  fun overwrite dst src =>
    mkValueString
      (mergeField overwrite (StringValue dst) (StringValue src))
      (mergeField overwrite (StringRawValue dst) (StringRawValue src)).

Definition DecodeString : M ValueString ptr :=
  u <- DecodeAndSaveULEB128 ;;
  let '(uleb, ulebData) := u in
  data <- ReadFull (N.to_nat uleb) ;;
  alloc (mkValueString (string_of_list_byte data) (ulebData ++ data)).

Definition BuildString (value : string) : M ValueString ptr :=
  let stringBytes := list_byte_of_string value in
  let rawValue :=
    EncodeULEB128 (uint32 (N.of_nat (length stringBytes))) ++ stringBytes in
  alloc (mkValueString value rawValue).

Definition ValueString_UpdateRaw (entry : ptr) : M ValueString unit :=
  newEntry <- DecodeString ;;
  v <- load newEntry ;;
  MergeWithOverwrite (DstStruct entry) (SrcStruct v).

Definition ValueString_GetRaw (entry : ptr) : M ValueString (list byte) :=
  v <- load entry ;;
  ret (StringRawValue v).

Definition ValueString_UpdateValue (entry : ptr) (value : string)
  : M ValueString unit :=
  newEntry <- BuildString value ;;
  v <- load newEntry ;;
  MergeWithOverwrite (DstStruct entry) (SrcStruct v).

(** *** ValueDouble *)

Record ValueDouble : Type := mkValueDouble {
  DoubleValue : float64;
  DoubleRawValue : list byte
}.

(** [v.Float() == 0]: both zeros of IEEE-754, the patterns whose 63 low bits
    are clear. *)
#[global] Instance Empty_float64 : Empty float64 :=
  fun f => N.eqb (f mod 2 ^ 63) 0.

#[global] Instance HasRaw_ValueDouble : HasRaw ValueDouble := DoubleRawValue.
#[global] Instance Struct_ValueDouble : Struct ValueDouble :=
  fun overwrite dst src =>
    mkValueDouble
      (mergeField overwrite (DoubleValue dst) (DoubleValue src))
      (mergeField overwrite (DoubleRawValue dst) (DoubleRawValue src)).

Definition DecodeDouble : M ValueDouble ptr :=
  data <- ReadFull 8 ;;
  alloc (mkValueDouble (BytesToFloat64 data) data).

Definition BuildDouble (value : float64) : M ValueDouble ptr :=
  alloc (mkValueDouble value (Float64ToBytes value)).

Definition ValueDouble_UpdateRaw (entry : ptr) : M ValueDouble unit :=
  newEntry <- DecodeDouble ;;
  v <- load newEntry ;;
  MergeWithOverwrite (DstStruct entry) (SrcStruct v).

Definition ValueDouble_GetRaw (entry : ptr) : M ValueDouble (list byte) :=
  v <- load entry ;;
  ret (DoubleRawValue v).

Definition ValueDouble_UpdateValue (entry : ptr) (value : float64)
  : M ValueDouble unit :=
  newEntry <- BuildDouble value ;;
  v <- load newEntry ;;
  MergeWithOverwrite (DstStruct entry) (SrcStruct v).

(** *** ValueRaw *)

Record ValueRaw : Type := mkValueRaw {
  RawValue_Value : list byte;
  RawRawValue : list byte
}.

#[global] Instance HasRaw_ValueRaw : HasRaw ValueRaw := RawRawValue.
#[global] Instance Struct_ValueRaw : Struct ValueRaw :=
  fun overwrite dst src =>
    mkValueRaw
      (mergeField overwrite (RawValue_Value dst) (RawValue_Value src))
      (mergeField overwrite (RawRawValue dst) (RawRawValue src)).

Definition DecodeRaw : M ValueRaw ptr :=
  u <- DecodeAndSaveULEB128 ;;
  let '(uleb, ulebData) := u in
  data <- ReadFull (N.to_nat uleb) ;;
  alloc (mkValueRaw data (ulebData ++ data)).

Definition BuildRaw (value : list byte) : M ValueRaw ptr :=
  alloc (mkValueRaw value
           (EncodeULEB128 (uint32 (N.of_nat (length value))) ++ value)).

Definition ValueRaw_UpdateRaw (entry : ptr) : M ValueRaw unit :=
  newEntry <- DecodeRaw ;;
  v <- load newEntry ;;
  MergeWithOverwrite (DstStruct entry) (SrcStruct v).

Definition ValueRaw_GetRaw (entry : ptr) : M ValueRaw (list byte) :=
  v <- load entry ;;
  ret (RawRawValue v).

Definition ValueRaw_UpdateValue (entry : ptr) (value : list byte)
  : M ValueRaw unit :=
  newEntry <- BuildRaw value ;;
  v <- load newEntry ;;
  MergeWithOverwrite (DstStruct entry) (SrcStruct v).

(** ** Arrays *)

(** [ValueBooleanArray], [ValueDoubleArray] and [ValueStringArray] are three
    copies of one struct, a slice of pointers to elements of one type. *)
Record ValueArray (T : Type) : Type := mkValueArray {
  elements : list ptr
}.
Arguments mkValueArray {T} elements.
Arguments elements {T} v.

Definition ValueBooleanArray := ValueArray ValueBoolean.
Definition ValueDoubleArray := ValueArray ValueDouble.
Definition ValueStringArray := ValueArray ValueString.

(** The interface [EntryValue]: a value of one of the seven dynamic types,
    or the nil interface value.  Scalars are held by pointer. *)
Inductive EntryValue : Type :=
| NilValue
| IsBoolean (p : ptr)
| IsDouble (p : ptr)
| IsString (p : ptr)
| IsRaw (p : ptr)
| IsBooleanArray (a : ValueBooleanArray)
| IsDoubleArray (a : ValueDoubleArray)
| IsStringArray (a : ValueStringArray).

(** The type assertions of [entry] to a pointer to [ValueBoolean], to
    [ValueDouble] and to [ValueString]; [None] when [ok] is false. *)
Definition castBoolean (entry : EntryValue) : option ptr :=
  match entry with IsBoolean p => Some p | _ => None end.
Definition castDouble (entry : EntryValue) : option ptr :=
  match entry with IsDouble p => Some p | _ => None end.
Definition castString (entry : EntryValue) : option ptr :=
  match entry with IsString p => Some p | _ => None end.

(** The code the three array types share, written once over the element
    type [T], its decoder and its type assertion. *)
Section Array.
Context {T : Type} `{Struct T} `{HasRaw T}.
Variable DecodeElement : M T ptr.
Variable cast : EntryValue -> option ptr.

(** [for i := uint8(0); i < index; i++ { elements[i] = decoded }], with
    [n] iterations left. *)
Fixpoint decodeElements (n i : nat) (elems : list ptr) : M T (list ptr) :=
  match n with
  | O => ret elems
  | S n' =>
      e <- DecodeElement ;;
      decodeElements n' (S i) (<[i := e]> elems)
  end.

Definition DecodeArray : M T (ValueArray T) :=
  indexData <- ReadFull 1 ;;
  match indexData with
  | [] => panic
  | b :: _ =>
      let index := Byte.to_nat b in
      elems <- decodeElements index 0 (replicate index Nil) ;;
      ret (mkValueArray elems)
  end.

Definition BuildArray (values : list ptr) : ValueArray T :=
  let index := if Nat.ltb 255 (length values) then 255
               else uint8 (length values) in
  mkValueArray (take index values).

Definition ArrayGet (array : ValueArray T) (index : byte) : outcome ptr :=
  if Nat.leb (uint8 (length (elements array))) (Byte.to_nat index)
  then Err ErrArrayIndexOutOfBounds
  else match elements array !! Byte.to_nat index with
       | Some e => Ok e
       | None => Panic
       end.

(** [Update] of [ValueBooleanArray] and [ValueStringArray]. *)
Definition ArrayUpdate (array : ValueArray T) (index : byte)
    (entry : EntryValue) : M T unit :=
  match cast entry with
  | None => fail ErrEntryCastInvalid
  | Some elem =>
      if Nat.leb (uint8 (length (elements array))) (Byte.to_nat index)
      then fail ErrArrayIndexOutOfBounds
      else match elements array !! Byte.to_nat index with
           | Some e =>
               v <- load elem ;;
               MergeWithOverwrite (DstStruct e) (SrcStruct v)
           | None => panic
           end
  end.

(** [Update] of [ValueDoubleArray]: the destination is the address of
    the slot, [&array.elements[index]], and the source the pointer. *)
Definition ArrayUpdateSlot (array : ValueArray T) (index : byte)
    (entry : EntryValue) : M T unit :=
  match cast entry with
  | None => fail ErrEntryCastInvalid
  | Some elem =>
      if Nat.leb (uint8 (length (elements array))) (Byte.to_nat index)
      then fail ErrArrayIndexOutOfBounds
      else MergeWithOverwrite (DstPointer (Byte.to_nat index)) (SrcPointer elem)
  end.

(** [Add] returns its error and the array as it leaves it. *)
Definition ArrayAdd (array : ValueArray T) (entry : EntryValue)
  : outcome unit * ValueArray T :=
  match cast entry with
  | None => (Err ErrEntryCastInvalid, array)
  | Some elem =>
      if Nat.ltb 255 (length (elements array))
      then (Err ErrArrayOutOfSpace, array)
      else (Ok tt, mkValueArray (elements array ++ [elem]))
  end.

(** [for ; i < uint8(len(array.elements)); i++ { data = append(data,
    array.elements[i].RawValue...) }], with [n] iterations left. *)
Fixpoint getRawLoop (elems : list ptr) (n i : nat) (data : list byte)
  : M T (list byte) :=
  match n with
  | O => ret data
  | S n' =>
      match elems !! i with
      | Some e =>
          v <- load e ;;
          getRawLoop elems n' (S i) (data ++ RawValue v)
      | None => panic
      end
  end.

Definition ArrayGetRaw (array : ValueArray T) : M T (list byte) :=
  let n := uint8 (length (elements array)) in
  getRawLoop (elements array) n 0 [byte_of_nat n].
End Array.

Definition DecodeBooleanArray : M ValueBoolean ValueBooleanArray :=
  DecodeArray DecodeBoolean.
Definition BuildBooleanArray (values : list ptr) : ValueBooleanArray :=
  BuildArray values.
Definition ValueBooleanArray_Get (array : ValueBooleanArray) (index : byte)
  : outcome EntryValue :=
  match ArrayGet array index with
  | Ok e => Ok (IsBoolean e)
  | Err e => Err e
  | Panic => Panic
  end.
Definition ValueBooleanArray_Update := ArrayUpdate (T := ValueBoolean) castBoolean.
Definition ValueBooleanArray_Add := ArrayAdd (T := ValueBoolean) castBoolean.
Definition ValueBooleanArray_GetRaw := ArrayGetRaw (T := ValueBoolean).

Definition DecodeDoubleArray : M ValueDouble ValueDoubleArray :=
  DecodeArray DecodeDouble.
Definition BuildDoubleArray (values : list ptr) : ValueDoubleArray :=
  BuildArray values.
Definition ValueDoubleArray_Get (array : ValueDoubleArray) (index : byte)
  : outcome EntryValue :=
  match ArrayGet array index with
  | Ok e => Ok (IsDouble e)
  | Err e => Err e
  | Panic => Panic
  end.
Definition ValueDoubleArray_Update := ArrayUpdateSlot (T := ValueDouble) castDouble.
Definition ValueDoubleArray_Add := ArrayAdd (T := ValueDouble) castDouble.
Definition ValueDoubleArray_GetRaw := ArrayGetRaw (T := ValueDouble).

Definition DecodeStringArray : M ValueString ValueStringArray :=
  DecodeArray DecodeString.
Definition BuildStringArray (values : list ptr) : ValueStringArray :=
  BuildArray values.
Definition ValueStringArray_Get (array : ValueStringArray) (index : byte)
  : outcome EntryValue :=
  match ArrayGet array index with
  | Ok e => Ok (IsString e)
  | Err e => Err e
  | Panic => Panic
  end.
Definition ValueStringArray_Update := ArrayUpdate (T := ValueString) castString.
Definition ValueStringArray_Add := ArrayAdd (T := ValueString) castString.
Definition ValueStringArray_GetRaw := ArrayGetRaw (T := ValueString).

(** ** Entry types, flags and the dispatcher *)

Definition EntryType := byte.
Definition EntryFlag := byte.

Definition EntryTypeBoolean : EntryType := x00.
Definition EntryTypeDouble : EntryType := x01.
Definition EntryTypeString : EntryType := x02.
Definition EntryTypeRawData : EntryType := x03.
Definition EntryTypeBooleanArr : EntryType := x10.
Definition EntryTypeDoubleArr : EntryType := x11.
Definition EntryTypeStringArr : EntryType := x12.
Definition EntryTypeRPCDef : EntryType := x20.
Definition EntryTypeUndef : EntryType := xff.

Definition EntryFlagTemporary : EntryFlag := x00.
Definition EntryFlagPersistent : EntryFlag := x01.
Definition EntryFlagReserved : EntryFlag := xfe.
Definition EntryFlagUndef : EntryFlag := xff.

(** The dispatcher can allocate a struct of any of the four types: its
    state is the reader and the four stores. *)
Record World : Type := mkWorld {
  input : Reader;
  booleans : list ValueBoolean;
  doubles : list ValueDouble;
  strings : list ValueString;
  raws : list ValueRaw
}.

Definition MW (A : Type) : Type := World -> outcome A * World.

Definition onBooleans {A} (m : M ValueBoolean A) : MW A :=
  fun w =>
    let '(o, s) := m (mkState (input w) (booleans w)) in
    (o, mkWorld (rd s) (mem s) (doubles w) (strings w) (raws w)).
Definition onDoubles {A} (m : M ValueDouble A) : MW A :=
  fun w =>
    let '(o, s) := m (mkState (input w) (doubles w)) in
    (o, mkWorld (rd s) (booleans w) (mem s) (strings w) (raws w)).
Definition onStrings {A} (m : M ValueString A) : MW A :=
  fun w =>
    let '(o, s) := m (mkState (input w) (strings w)) in
    (o, mkWorld (rd s) (booleans w) (doubles w) (mem s) (raws w)).
Definition onRaws {A} (m : M ValueRaw A) : MW A :=
  fun w =>
    let '(o, s) := m (mkState (input w) (raws w)) in
    (o, mkWorld (rd s) (booleans w) (doubles w) (strings w) (mem s)).

(** A Go function that returns a value next to its error returns the pair;
    [None] is the nil error. *)
Definition DecodeEntryFlag (w : World) : (EntryFlag * option error) * World :=
  match input w with
  | [] => ((EntryFlagUndef, Some EOF), w)
  | flag :: r =>
      let w' := mkWorld r (booleans w) (doubles w) (strings w) (raws w) in
      if Byte.eqb flag EntryFlagPersistent || Byte.eqb flag EntryFlagTemporary
         || Byte.eqb flag EntryFlagReserved
      then ((flag, None), w')
      else ((EntryFlagUndef, Some ErrEntryFlagNoSuchType), w')
  end.

Definition DecodeEntryType (w : World) : (EntryType * option error) * World :=
  match input w with
  | [] => ((EntryTypeUndef, Some EOF), w)
  | rawType :: r =>
      ((rawType, None), mkWorld r (booleans w) (doubles w) (strings w) (raws w))
  end.

Definition DecodeEntryValue (entryType : EntryType) : MW EntryValue :=
  if Byte.eqb entryType EntryTypeBoolean then
    onBooleans (p <- DecodeBoolean ;; ret (IsBoolean p))
  else if Byte.eqb entryType EntryTypeDouble then
    onDoubles (p <- DecodeDouble ;; ret (IsDouble p))
  else if Byte.eqb entryType EntryTypeString then
    onStrings (p <- DecodeString ;; ret (IsString p))
  else if Byte.eqb entryType EntryTypeRawData then
    onRaws (p <- DecodeRaw ;; ret (IsRaw p))
  else if Byte.eqb entryType EntryTypeBooleanArr then
    onBooleans (a <- DecodeBooleanArray ;; ret (IsBooleanArray a))
  else if Byte.eqb entryType EntryTypeDoubleArr then
    onDoubles (a <- DecodeDoubleArray ;; ret (IsDoubleArray a))
  else if Byte.eqb entryType EntryTypeStringArr then
    onStrings (a <- DecodeStringArray ;; ret (IsStringArray a))
  else fun w => (Err ErrEntryNoSuchType, w).

(** Returns [(value, entryType, err)]: the outcome carries [value] and
    [err]. *)
Definition DecodeEntryValueAndType (w : World)
  : (outcome EntryValue * EntryType) * World :=
  match input w with
  | [] => ((Err EOF, EntryTypeUndef), w)
  | entryType :: r =>
      let '(o, w') :=
        DecodeEntryValue entryType
          (mkWorld r (booleans w) (doubles w) (strings w) (raws w)) in
      ((o, entryType), w')
  end.

(** [GetRaw] through the interface: the method of the dynamic type. *)
Definition GetRaw (value : EntryValue) : MW (list byte) :=
  match value with
  | NilValue => fun w => (Panic, w)
  | IsBoolean p => onBooleans (ValueBoolean_GetRaw p)
  | IsDouble p => onDoubles (ValueDouble_GetRaw p)
  | IsString p => onStrings (ValueString_GetRaw p)
  | IsRaw p => onRaws (ValueRaw_GetRaw p)
  | IsBooleanArray a => onBooleans (ValueBooleanArray_GetRaw a)
  | IsDoubleArray a => onDoubles (ValueDoubleArray_GetRaw a)
  | IsStringArray a => onStrings (ValueStringArray_GetRaw a)
  end.

(** * Observations used to state the properties *)

(** The value a byte string denotes as an unsigned LEB128 number, without
    any bound on its width, and whether its continuation bits are those of
    one complete number. *)
Fixpoint valueULEB128 (bs : list byte) : N :=
  match bs with
  | [] => 0
  | b :: bs' => (N.land (Byte.to_N b) 0x7f + 128 * valueULEB128 bs')%N
  end.

Fixpoint wellFormedULEB128 (bs : list byte) : bool :=
  match bs with
  | [] => false
  | [b] => N.eqb (N.land (Byte.to_N b) 0x80) 0
  | b :: bs' => negb (N.eqb (N.land (Byte.to_N b) 0x80) 0) && wellFormedULEB128 bs'
  end.

(** A byte string that [DecodeAndSaveULEB128] reads, whole and nothing
    more, as the number [n]. *)
Definition isULEB128 (raw : list byte) (n : N) : Prop :=
  forall rest, decodeLoop (raw ++ rest) 0 0 [] = (Ok (n, raw), rest).

(** The invariant of section 3 on a value struct: its wire bytes, decoded
    again, reproduce the struct, logical value and wire bytes alike. *)
Definition synced {T} `{HasRaw T} (Decode : M T ptr) (v : T) : Prop :=
  forall r m,
    Decode (mkState (RawValue v ++ r) m)
    = (Ok (Addr (length m)), mkState r (m ++ [v])).

(** What a successful decode of one scalar does: it allocates one struct at
    the first free address, leaves the older ones alone, and has consumed
    from the reader exactly the wire bytes the struct holds; the struct
    satisfies the invariant. *)
Definition decodesOne {T} `{HasRaw T} (Decode : M T ptr) : Prop :=
  forall s p s',
    Decode s = (Ok p, s') ->
    exists v,
      p = Addr (length (mem s)) /\ mem s' = mem s ++ [v]
      /\ rd s = RawValue v ++ rd s' /\ synced Decode v.

(** Reading through a pointer, as a function of the store. *)
Definition deref {T} (m : list T) (p : ptr) : option T :=
  match p with
  | Nil => None
  | Addr a => m !! a
  end.

(** [n] elements decoded one after the other, first to last; the first
    failure is the failure of the whole. *)
Fixpoint decodeSeq {T} (DecodeElement : M T ptr) (n : nat) : M T (list ptr) :=
  match n with
  | O => ret []
  | S n' =>
      e <- DecodeElement ;;
      es <- decodeSeq DecodeElement n' ;;
      ret (e :: es)
  end.

(** The pointers a run of [n] allocations returns: the next free addresses,
    in order. *)
Definition fresh {T} (m : list T) (n : nat) : list ptr :=
  map Addr (seq (length m) n).

(** *** Logical values *)

(** The logical values of section 3, one shape per variant; an array is
    the sequence of the logical values of its elements. *)
Inductive Logical : Type :=
| LBoolean (b : bool)
| LDouble (f : float64)
| LString (s : string)
| LRaw (d : list byte)
| LBooleanArray (l : list bool)
| LDoubleArray (l : list float64)
| LStringArray (l : list string).

(** The tag under which a variant travels (section 6). *)
Definition wireType (v : Logical) : EntryType :=
  match v with
  | LBoolean _ => EntryTypeBoolean
  | LDouble _ => EntryTypeDouble
  | LString _ => EntryTypeString
  | LRaw _ => EntryTypeRawData
  | LBooleanArray _ => EntryTypeBooleanArr
  | LDoubleArray _ => EntryTypeDoubleArr
  | LStringArray _ => EntryTypeStringArr
  end.

(** One [Build] call per logical value, first to last. *)
Fixpoint buildAll {T A} (build : A -> M T ptr) (l : list A) : M T (list ptr) :=
  match l with
  | [] => ret []
  | a :: l' =>
      p <- build a ;;
      ps <- buildAll build l' ;;
      ret (p :: ps)
  end.

(** The structs a list of pointers points to. *)
Fixpoint loadAll {T} (ps : list ptr) : M T (list T) :=
  match ps with
  | [] => ret []
  | p :: ps' =>
      v <- load p ;;
      vs <- loadAll ps' ;;
      ret (v :: vs)
  end.

(** Construction of a value from its logical value with the [Build]
    function of its variant; the elements of an array are built first. *)
Definition Build (v : Logical) : MW EntryValue :=
  match v with
  | LBoolean b => onBooleans (p <- BuildBoolean b ;; ret (IsBoolean p))
  | LDouble f => onDoubles (p <- BuildDouble f ;; ret (IsDouble p))
  | LString s => onStrings (p <- BuildString s ;; ret (IsString p))
  | LRaw d => onRaws (p <- BuildRaw d ;; ret (IsRaw p))
  | LBooleanArray l =>
      onBooleans (ps <- buildAll BuildBoolean l ;;
                  ret (IsBooleanArray (BuildBooleanArray ps)))
  | LDoubleArray l =>
      onDoubles (ps <- buildAll BuildDouble l ;;
                 ret (IsDoubleArray (BuildDoubleArray ps)))
  | LStringArray l =>
      onStrings (ps <- buildAll BuildString l ;;
                 ret (IsStringArray (BuildStringArray ps)))
  end.

(** The logical value a value holds: its [Value] field, or those of its
    elements. *)
Definition logical (value : EntryValue) : MW Logical :=
  match value with
  | NilValue => fun w => (Panic, w)
  | IsBoolean p => onBooleans (v <- load p ;; ret (LBoolean (BooleanValue v)))
  | IsDouble p => onDoubles (v <- load p ;; ret (LDouble (DoubleValue v)))
  | IsString p => onStrings (v <- load p ;; ret (LString (StringValue v)))
  | IsRaw p => onRaws (v <- load p ;; ret (LRaw (RawValue_Value v)))
  | IsBooleanArray a =>
      onBooleans (vs <- loadAll (elements a) ;;
                  ret (LBooleanArray (map BooleanValue vs)))
  | IsDoubleArray a =>
      onDoubles (vs <- loadAll (elements a) ;;
                 ret (LDoubleArray (map DoubleValue vs)))
  | IsStringArray a =>
      onStrings (vs <- loadAll (elements a) ;;
                 ret (LStringArray (map StringValue vs)))
  end.

(** The logical values the wire format has room for: a float is a 64-bit
    pattern, a length prefix a [uint32], an element count one byte that
    [Build...Array] keeps to at most 255. *)
Definition fitsDouble (f : float64) : Prop := (f < 2 ^ 64)%N.
Definition fitsString (s : string) : Prop :=
  (N.of_nat (String.length s) < 2 ^ 32)%N.
Definition fitsRaw (d : list byte) : Prop := (N.of_nat (length d) < 2 ^ 32)%N.

Definition fits (v : Logical) : Prop :=
  match v with
  | LBoolean _ => True
  | LDouble f => fitsDouble f
  | LString s => fitsString s
  | LRaw d => fitsRaw d
  | LBooleanArray l => length l <= 255
  | LDoubleArray l => length l <= 255 /\ Forall fitsDouble l
  | LStringArray l => length l <= 255 /\ Forall fitsString l
  end.

(** The world [w] with the reader replaced by one over [r]. *)
Definition withInput (r : Reader) (w : World) : World :=
  mkWorld r (booleans w) (doubles w) (strings w) (raws w).

(** A world with no object allocated, reading [r]. *)
Definition start (r : Reader) : World := mkWorld r [] [] [] [].

(** The tag of the dynamic type of a value; the nil interface has none. *)
Definition dynamicType (value : EntryValue) : EntryType :=
  match value with
  | NilValue => EntryTypeUndef
  | IsBoolean _ => EntryTypeBoolean
  | IsDouble _ => EntryTypeDouble
  | IsString _ => EntryTypeString
  | IsRaw _ => EntryTypeRawData
  | IsBooleanArray _ => EntryTypeBooleanArr
  | IsDoubleArray _ => EntryTypeDoubleArr
  | IsStringArray _ => EntryTypeStringArr
  end.

(** A computation that does not panic, only consumes from the front of the
    reader and only allocates: the structs it finds keep their addresses
    and contents. *)
Definition advances {T A} (m : M T A) : Prop :=
  forall s,
    (m s).1 <> Panic
    /\ (exists consumed, rd s = consumed ++ rd (m s).2)
    /\ (exists allocated, mem (m s).2 = mem s ++ allocated).

(** The same between two worlds. *)
Definition extends (w w' : World) : Prop :=
  (exists consumed, input w = consumed ++ input w')
  /\ (exists allocated, booleans w' = booleans w ++ allocated)
  /\ (exists allocated, doubles w' = doubles w ++ allocated)
  /\ (exists allocated, strings w' = strings w ++ allocated)
  /\ (exists allocated, raws w' = raws w ++ allocated).

(** * Properties *)

(** ** Bytes *)

Lemma to_N_byte_of_N (n : N) : Byte.to_N (byte_of_N n) = (n mod 256)%N.
Proof.
  unfold byte_of_N.
  destruct (Byte.of_N (n mod 256)) as [b|] eqn:E.
  - now apply Byte.to_of_N.
  - apply Byte.of_N_None_iff in E.
    pose proof (N.mod_upper_bound n 256). lia.
Qed.

Lemma byte_of_N_to_N (b : byte) : byte_of_N (Byte.to_N b) = b.
Proof.
  unfold byte_of_N.
  rewrite N.mod_small by (pose proof (Byte.to_N_bounded b); lia).
  now rewrite Byte.of_to_N.
Qed.

Lemma byte_of_nat_to_nat (b : byte) : byte_of_nat (Byte.to_nat b) = b.
Proof.
  unfold byte_of_nat. rewrite Byte.to_nat_via_N, N2Nat.id.
  apply byte_of_N_to_N.
Qed.

Lemma to_nat_lt_256 (b : byte) : Byte.to_nat b < 256.
Proof.
  rewrite Byte.to_nat_via_N. pose proof (Byte.to_N_bounded b). lia.
Qed.

Lemma byte_eqb_eq (a b : byte) : Byte.eqb a b = true <-> a = b.
Proof.
  split.
  - apply Byte.byte_dec_bl.
  - apply Byte.byte_dec_lb.
Qed.

Lemma byte_eqb_neq (a b : byte) : a <> b -> Byte.eqb a b = false.
Proof.
  intros Hne. destruct (Byte.eqb a b) eqn:E; [|reflexivity].
  apply byte_eqb_eq in E. contradiction.
Qed.

(** ** The store and the reader *)

Section Store.
Context {T : Type}.
Implicit Types (r : Reader) (m : list T) (v : T) (s : State T).

Lemma load_fresh r m v :
  load (Addr (length m)) (mkState r (m ++ [v])) = (Ok v, mkState r (m ++ [v])).
Proof.
  unfold load; simpl. now rewrite list_lookup_middle.
Qed.

Lemma store_fresh r m v v' :
  store (Addr (length m)) v' (mkState r (m ++ [v]))
  = (Ok tt, mkState r (m ++ [v'])).
Proof.
  unfold store; simpl. rewrite list_lookup_middle by reflexivity.
  replace (length m) with (length m + 0) at 1 by lia.
  now rewrite insert_app_r.
Qed.

Lemma ReadFull_app (d : list byte) r m :
  ReadFull (length d) (mkState (d ++ r) m) = (Ok d, mkState r m).
Proof.
  unfold ReadFull; simpl.
  destruct d as [|b d]; [reflexivity|].
  cbn [length Nat.eqb app].
  assert (Hlt : Nat.ltb (S (length (d ++ r))) (S (length d)) = false).
  { apply Nat.ltb_ge. rewrite length_app. lia. }
  rewrite Hlt.
  change (b :: d ++ r) with ((b :: d) ++ r).
  change (S (length d)) with (length (b :: d)).
  now rewrite take_app_length, drop_app_length.
Qed.

Lemma ReadFull_Ok n s d s' :
  ReadFull n s = (Ok d, s') ->
  rd s = d ++ rd s' /\ mem s' = mem s /\ length d = n.
Proof.
  unfold ReadFull.
  destruct (Nat.eqb n 0) eqn:E0.
  { apply Nat.eqb_eq in E0. intros [= <- <-]. now subst. }
  destruct (Nat.eqb (length (rd s)) 0); [discriminate|].
  destruct (Nat.ltb (length (rd s)) n) eqn:El; [discriminate|].
  apply Nat.ltb_ge in El.
  intros [= <- <-]; simpl. split; [|split].
  - now rewrite take_drop.
  - reflexivity.
  - rewrite length_take. lia.
Qed.

Lemma ReadFull_mem n s : mem (ReadFull n s).2 = mem s.
Proof.
  unfold ReadFull.
  destruct (Nat.eqb n 0); [reflexivity|].
  destruct (Nat.eqb (length (rd s)) 0); [reflexivity|].
  now destruct (Nat.ltb (length (rd s)) n).
Qed.

Lemma ReadFull_1_cons (b : byte) r m :
  ReadFull 1 (mkState (b :: r) m) = (Ok [b], mkState r m).
Proof. apply (ReadFull_app [b]). Qed.

Lemma ReadFull_1_nil m :
  ReadFull 1 (mkState [] m) = (Err EOF, mkState [] m).
Proof. reflexivity. Qed.
End Store.

(** ** Sequencing *)

Section Bind.
Context {T A B : Type}.
Implicit Types (m : M T A) (k : A -> M T B) (s : State T).

Lemma bind_Ok m k s a s1 : m s = (Ok a, s1) -> bind m k s = k a s1.
Proof. intros E. unfold bind. now rewrite E. Qed.

Lemma bind_Err m k s e s1 : m s = (Err e, s1) -> bind m k s = (Err e, s1).
Proof. intros E. unfold bind. now rewrite E. Qed.

Lemma bind_Panic m k s s1 : m s = (Panic, s1) -> bind m k s = (Panic, s1).
Proof. intros E. unfold bind. now rewrite E. Qed.

Lemma bind_assoc {C} m k (k' : B -> M T C) s :
  bind (bind m k) k' s = bind m (fun a => bind (k a) k') s.
Proof.
  unfold bind. destruct (m s) as [[a| |] s1]; reflexivity.
Qed.

Lemma bind_ext m m' k s : m s = m' s -> bind m k s = bind m' k s.
Proof. intros E. unfold bind. now rewrite E. Qed.

Lemma bind_Ok_inv m k s b s' :
  bind m k s = (Ok b, s') ->
  exists a s1, m s = (Ok a, s1) /\ k a s1 = (Ok b, s').
Proof.
  unfold bind. destruct (m s) as [[a| |] s1]; try discriminate.
  intros E. now exists a, s1.
Qed.
End Bind.

(** ** mergo *)

(** What a merge onto an allocated struct does: the struct at the
    destination becomes the field-wise merge, every other address keeps
    its struct. *)
Lemma MergeWithOverwrite_struct {T} `{Struct T} (a : nat) (v d : T) (s : State T) :
  mem s !! a = Some d ->
  MergeWithOverwrite (DstStruct (Addr a)) (SrcStruct v) s
  = (Ok tt, mkState (rd s) (<[a := deepMerge true d v]> (mem s))).
Proof.
  intros Hd. unfold MergeWithOverwrite, merge. cbn [dstKind].
  assert (Hload : load (Addr a) s = (Ok d, s)).
  { unfold load. now rewrite Hd. }
  rewrite (bind_Ok _ _ _ _ _ Hload). unfold bind, ret, store.
  now rewrite Hd.
Qed.

Lemma MergeWithOverwrite_pointer {T} `{Struct T} (slot : nat) (src : mergeSrc T)
    (s : State T) :
  MergeWithOverwrite (DstPointer slot) src s = (Err ErrNotSupported, s).
Proof. reflexivity. Qed.

(** ** ULEB128 *)

Local Open Scope N_scope.

Lemma testbit_127 n : N.testbit 0x7f n = (n <? 7).
Proof.
  change 0x7f with (N.ones 7).
  destruct (N.ltb_spec n 7).
  - now apply N.ones_spec_low.
  - now apply N.ones_spec_high.
Qed.

Lemma testbit_128 n : N.testbit 0x80 n = (n =? 7).
Proof.
  change 0x80 with (2 ^ 7). rewrite N.pow2_bits_eqb. apply N.eqb_sym.
Qed.

Lemma testbit_uint32 x n : N.testbit (uint32 x) n = (n <? 32) && N.testbit x n.
Proof.
  unfold uint32. destruct (N.ltb_spec n 32).
  - now rewrite N.mod_pow2_bits_low.
  - now rewrite N.mod_pow2_bits_high.
Qed.

Lemma testbit_shiftl a s n :
  N.testbit (N.shiftl a s) n = (s <=? n) && N.testbit a (n - s).
Proof.
  destruct (N.leb_spec s n).
  - now rewrite N.shiftl_spec_high'.
  - now rewrite N.shiftl_spec_low.
Qed.

Lemma group_lt_128 v : N.land v 0x7f < 128.
Proof.
  change 0x7f with (N.ones 7). rewrite N.land_ones.
  now apply N.mod_upper_bound.
Qed.

Lemma group_continued_lt_256 v : N.lor (N.land v 0x7f) 0x80 < 256.
Proof.
  destruct (N.eq_dec (N.lor (N.land v 0x7f) 0x80) 0) as [->|Hnz]; [reflexivity|].
  apply N.log2_lt_pow2 with (b := 8); [lia|].
  rewrite N.log2_lor.
  pose proof (group_lt_128 v) as Hg.
  destruct (N.eq_dec (N.land v 0x7f) 0) as [->|Hgz]; [reflexivity|].
  apply N.max_lub_lt; [|reflexivity].
  apply N.log2_lt_pow2; [lia|]. change (2 ^ 8) with 256. lia.
Qed.

Lemma group_continued_flag v : N.land (N.lor (N.land v 0x7f) 0x80) 0x80 = 0x80.
Proof.
  apply N.bits_inj; intros n.
  rewrite N.land_spec, N.lor_spec, N.land_spec, testbit_127, testbit_128.
  destruct (N.eqb_spec n 7) as [->|]; [|now rewrite andb_false_r].
  now rewrite orb_true_r.
Qed.

Lemma group_continued_data v :
  N.land (N.lor (N.land v 0x7f) 0x80) 0x7f = N.land v 0x7f.
Proof.
  apply N.bits_inj; intros n.
  rewrite !N.land_spec, N.lor_spec, N.land_spec, testbit_127, testbit_128.
  destruct (N.ltb_spec n 7), (N.eqb_spec n 7); try lia;
    now rewrite ?andb_true_r, ?andb_false_r, ?orb_false_r.
Qed.

Lemma group_flag v : N.land (N.land v 0x7f) 0x80 = 0.
Proof.
  apply N.bits_inj; intros n.
  rewrite !N.land_spec, testbit_127, testbit_128, N.bits_0.
  destruct (N.ltb_spec n 7), (N.eqb_spec n 7); try lia;
    now rewrite ?andb_true_r, ?andb_false_r.
Qed.

Lemma group_data v : N.land (N.land v 0x7f) 0x7f = N.land v 0x7f.
Proof. now rewrite <- N.land_assoc, N.land_diag. Qed.

Lemma split_groups v : v = N.land v 0x7f + 128 * N.shiftr v 7.
Proof.
  change 0x7f with (N.ones 7). rewrite N.land_ones, N.shiftr_div_pow2.
  change (2 ^ 7) with 128.
  rewrite N.add_comm. now apply N.div_mod.
Qed.

(** One step of the accumulation, on the bits. *)
Lemma accumulate_step acc v shift :
  uint32 (N.lor (uint32 (N.lor acc (N.shiftl (N.land v 0x7f) shift)))
                (N.shiftl (N.shiftr v 7) (shift + 7)))
  = uint32 (N.lor acc (N.shiftl v shift)).
Proof.
  apply N.bits_inj; intros n.
  rewrite !testbit_uint32, !N.lor_spec, testbit_uint32, N.lor_spec,
    !testbit_shiftl, N.land_spec, testbit_127, N.shiftr_spec'.
  destruct (N.ltb_spec n 32); [|reflexivity]. cbn [andb].
  destruct (N.leb_spec shift n), (N.leb_spec (shift + 7) n),
    (N.ltb_spec (n - shift) 7); try lia; cbn [andb orb];
    rewrite ?andb_true_r, ?andb_false_r, ?orb_false_r; try reflexivity.
  now replace (n - (shift + 7) + 7) with (n - shift) by lia.
Qed.

Lemma encodeLoop_decodeLoop fuel : forall v acc shift saved rest,
  v < 2 ^ (7 * N.of_nat (S fuel)) ->
  decodeLoop (encodeLoop (S fuel) v ++ rest) acc shift saved
  = (Ok (uint32 (N.lor acc (N.shiftl v shift)), saved ++ encodeLoop (S fuel) v),
     rest).
Proof.
  induction fuel as [|fuel IH]; intros v acc shift saved rest Hv.
  - assert (Hhi : N.shiftr v 7 = 0).
    { rewrite N.shiftr_div_pow2. apply N.div_small. exact Hv. }
    cbn [encodeLoop]. rewrite Hhi. cbn [N.eqb app decodeLoop].
    rewrite to_N_byte_of_N, N.mod_small by (pose proof (group_lt_128 v); lia).
    rewrite group_flag, group_data. cbn [N.eqb].
    pose proof (split_groups v) as Hs. rewrite Hhi, N.mul_0_r, N.add_0_r in Hs.
    now rewrite <- Hs.
  - remember (S fuel) as f eqn:Hf.
    cbn [encodeLoop].
    destruct (N.eqb_spec (N.shiftr v 7) 0) as [Hhi|Hhi].
    + cbn [app decodeLoop].
      rewrite to_N_byte_of_N, N.mod_small by (pose proof (group_lt_128 v); lia).
      rewrite group_flag, group_data. cbn [N.eqb].
      pose proof (split_groups v) as Hs. rewrite Hhi, N.mul_0_r, N.add_0_r in Hs.
      now rewrite <- Hs.
    + cbn [app decodeLoop].
      rewrite to_N_byte_of_N, N.mod_small by apply group_continued_lt_256.
      rewrite group_continued_flag, group_continued_data. cbn [N.eqb].
      subst f. rewrite IH.
      * rewrite accumulate_step. now rewrite <- app_assoc.
      * rewrite N.shiftr_div_pow2. apply N.Div0.div_lt_upper_bound.
        rewrite <- N.pow_add_r.
        replace (7 + 7 * N.of_nat (S fuel)) with (7 * N.of_nat (S (S fuel))) by lia.
        exact Hv.
Qed.

Lemma uint32_small v : v < 2 ^ 32 -> uint32 v = v.
Proof. intros Hv. now apply N.mod_small. Qed.

Lemma uint32_lt v : uint32 v < 2 ^ 32.
Proof. unfold uint32. now apply N.mod_upper_bound. Qed.

Lemma uint32_idem v : uint32 (uint32 v) = uint32 v.
Proof. apply uint32_small, uint32_lt. Qed.

Lemma EncodeULEB128_decodeLoop v rest :
  decodeLoop (EncodeULEB128 v ++ rest) 0 0 []
  = (Ok (uint32 v, EncodeULEB128 v), rest).
Proof.
  unfold EncodeULEB128. rewrite encodeLoop_decodeLoop.
  - rewrite N.shiftl_0_r, N.lor_0_l, uint32_idem. reflexivity.
  - pose proof (uint32_lt v) as Hv.
    eapply N.lt_trans; [exact Hv|]. reflexivity.
Qed.

Lemma DecodeAndSaveULEB128_EncodeULEB128 {T} v rest (m : list T) :
  DecodeAndSaveULEB128 (mkState (EncodeULEB128 v ++ rest) m)
  = (Ok (uint32 v, EncodeULEB128 v), mkState rest m).
Proof.
  unfold DecodeAndSaveULEB128; cbn [rd mem].
  now rewrite EncodeULEB128_decodeLoop.
Qed.

Lemma valueULEB128_lt bs : valueULEB128 bs < 128 ^ N.of_nat (length bs).
Proof.
  induction bs as [|b bs IH].
  - reflexivity.
  - cbn [valueULEB128 length]. rewrite Nat2N.inj_succ, N.pow_succ_r'.
    pose proof (group_lt_128 (Byte.to_N b)). lia.
Qed.

Lemma wellFormedULEB128_nonempty bs :
  wellFormedULEB128 bs = true -> (0 < length bs)%nat.
Proof. destruct bs; [discriminate|]. cbn [length]. lia. Qed.

Lemma encodeLoop_length_le fuel : forall v k,
  v < 128 ^ N.of_nat (S k) -> (length (encodeLoop fuel v) <= S k)%nat.
Proof.
  induction fuel as [|fuel IH]; intros v k Hv; cbn [encodeLoop length]; [lia|].
  destruct (N.eqb_spec (N.shiftr v 7) 0) as [Hhi|Hhi]; cbn [length]; [lia|].
  destruct k as [|k].
  - exfalso. apply Hhi. rewrite N.shiftr_div_pow2. now apply N.div_small.
  - apply le_n_S, IH. rewrite N.shiftr_div_pow2.
    apply N.Div0.div_lt_upper_bound. change (2 ^ 7) with 128.
    now rewrite <- N.pow_succ_r', <- Nat2N.inj_succ.
Qed.

Lemma encodeLoop_wellFormed fuel : forall v,
  v < 2 ^ (7 * N.of_nat (S fuel)) ->
  wellFormedULEB128 (encodeLoop (S fuel) v) = true
  /\ valueULEB128 (encodeLoop (S fuel) v) = v.
Proof.
  induction fuel as [|fuel IH]; intros v Hv.
  - assert (Hhi : N.shiftr v 7 = 0).
    { rewrite N.shiftr_div_pow2. now apply N.div_small. }
    cbn [encodeLoop]. rewrite Hhi. cbn [N.eqb wellFormedULEB128 valueULEB128].
    rewrite to_N_byte_of_N, N.mod_small by (pose proof (group_lt_128 v); lia).
    rewrite group_flag, group_data. split; [reflexivity|].
    pose proof (split_groups v). lia.
  - remember (S fuel) as f eqn:Hf. cbn [encodeLoop].
    destruct (N.eqb_spec (N.shiftr v 7) 0) as [Hhi|Hhi].
    + cbn [wellFormedULEB128 valueULEB128].
      rewrite to_N_byte_of_N, N.mod_small by (pose proof (group_lt_128 v); lia).
      rewrite group_flag, group_data. split; [reflexivity|].
      pose proof (split_groups v). lia.
    + subst f. destruct (IH (N.shiftr v 7)) as [Hwf Hval].
      { rewrite N.shiftr_div_pow2. apply N.Div0.div_lt_upper_bound.
        rewrite <- N.pow_add_r.
        now replace (7 + 7 * N.of_nat (S fuel)) with (7 * N.of_nat (S (S fuel))) by lia. }
      split.
      * remember (encodeLoop (S fuel) (N.shiftr v 7)) as tl eqn:Htl.
        destruct tl as [|b tl]; [discriminate Hwf|].
        cbn [wellFormedULEB128]. cbn [wellFormedULEB128] in Hwf. rewrite Hwf.
        rewrite to_N_byte_of_N, N.mod_small by apply group_continued_lt_256.
        now rewrite group_continued_flag.
      * cbn [valueULEB128]. rewrite Hval.
        rewrite to_N_byte_of_N, N.mod_small by apply group_continued_lt_256.
        rewrite group_continued_data. symmetry. apply split_groups.
Qed.

Lemma EncodeULEB128_minimal_length value bs :
  wellFormedULEB128 bs = true ->
  valueULEB128 bs = uint32 value ->
  (length (EncodeULEB128 value) <= length bs)%nat.
Proof.
  intros Hwf Hval. unfold EncodeULEB128.
  pose proof (wellFormedULEB128_nonempty bs Hwf) as Hne.
  destruct (length bs) as [|k] eqn:Hlen; [lia|].
  apply encodeLoop_length_le.
  rewrite <- Hval, <- Hlen. apply valueULEB128_lt.
Qed.

Local Close Scope N_scope.

(** ** Scalar decoders *)

(** Unfolds the [RawValue] field access of a struct to its projection. *)
Ltac raw :=
  unfold RawValue, HasRaw_ValueBoolean, HasRaw_ValueDouble, HasRaw_ValueString,
    HasRaw_ValueRaw in *;
  cbn [BooleanRawValue BooleanValue DoubleRawValue DoubleValue StringRawValue
       StringValue RawRawValue RawValue_Value app rd mem] in *.

Lemma DecodeBoolean_nil m :
  DecodeBoolean (mkState [] m) = (Err EOF, mkState [] m).
Proof. reflexivity. Qed.

Lemma DecodeBoolean_cons b r m :
  DecodeBoolean (mkState (b :: r) m)
  = if Byte.eqb b BoolFalse then
      (Ok (Addr (length m)), mkState r (m ++ [mkValueBoolean false [b]]))
    else if Byte.eqb b BoolTrue then
      (Ok (Addr (length m)), mkState r (m ++ [mkValueBoolean true [b]]))
    else (Err ErrEntryDataInvalid, mkState r (m ++ [mkValueBoolean false [b]])).
Proof.
  unfold DecodeBoolean, bind. rewrite ReadFull_1_cons.
  unfold alloc; cbn [rd mem].
  destruct (Byte.eqb b BoolFalse); [|destruct (Byte.eqb b BoolTrue)].
  - now rewrite store_fresh.
  - now rewrite store_fresh.
  - reflexivity.
Qed.

Lemma DecodeBoolean_decodesOne : decodesOne DecodeBoolean.
Proof.
  intros [r m] p s' Hdec. destruct r as [|b r]; [discriminate Hdec|].
  rewrite DecodeBoolean_cons in Hdec.
  destruct (Byte.eqb b BoolFalse) eqn:E0; [|destruct (Byte.eqb b BoolTrue) eqn:E1].
  - injection Hdec as <- <-. eexists; repeat split.
    intros r' m'. raw. rewrite DecodeBoolean_cons. now rewrite E0.
  - injection Hdec as <- <-. eexists; repeat split.
    intros r' m'. raw. rewrite DecodeBoolean_cons. now rewrite E0, E1.
  - discriminate Hdec.
Qed.

Lemma BuildBoolean_synced value r m :
  exists v,
    BuildBoolean value (mkState r m) = (Ok (Addr (length m)), mkState r (m ++ [v]))
    /\ BooleanValue v = value /\ synced DecodeBoolean v.
Proof.
  eexists; split; [reflexivity|]. split; [reflexivity|].
  intros r' m'. destruct value; raw; now rewrite DecodeBoolean_cons.
Qed.

(** *** Double *)

Local Open Scope N_scope.

Lemma Uint_snoc l b : Uint (l ++ [b]) = Uint l * 256 + Byte.to_N b.
Proof. unfold Uint. now rewrite fold_left_app. Qed.

Lemma Uint_PutUint n : forall v, Uint (PutUint n v) = v mod 256 ^ N.of_nat n.
Proof.
  induction n as [|n IH]; intros v.
  - cbn. now rewrite N.mod_1_r.
  - cbn [PutUint]. rewrite Uint_snoc, IH, to_N_byte_of_N.
    rewrite Nat2N.inj_succ, N.pow_succ_r', N.shiftr_div_pow2.
    change (2 ^ 8) with 256.
    rewrite N.Div0.mod_mul_r. lia.
Qed.

Lemma length_PutUint n : forall v, length (PutUint n v) = n.
Proof.
  induction n as [|n IH]; intros v; [reflexivity|].
  cbn [PutUint]. rewrite length_app, IH. cbn. lia.
Qed.

Lemma BytesToFloat64_Float64ToBytes f :
  BytesToFloat64 (Float64ToBytes f) = uint64 f.
Proof.
  unfold BytesToFloat64, Float64ToBytes. rewrite Uint_PutUint.
  change (256 ^ N.of_nat 8) with (2 ^ 64).
  unfold uint64. now rewrite N.Div0.mod_mod.
Qed.

Local Close Scope N_scope.

Lemma length_Float64ToBytes f : length (Float64ToBytes f) = 8.
Proof. apply length_PutUint. Qed.

Lemma DecodeDouble_app d r m :
  length d = 8 ->
  DecodeDouble (mkState (d ++ r) m)
  = (Ok (Addr (length m)), mkState r (m ++ [mkValueDouble (BytesToFloat64 d) d])).
Proof.
  intros Hlen. unfold DecodeDouble, bind. rewrite <- Hlen, ReadFull_app.
  reflexivity.
Qed.

Lemma DecodeDouble_decodesOne : decodesOne DecodeDouble.
Proof.
  intros s p s' Hdec. unfold DecodeDouble, bind in Hdec.
  destruct (ReadFull 8 s) as [[d| |] s1] eqn:Hread; try discriminate Hdec.
  apply ReadFull_Ok in Hread as (Hrd & Hmem & Hlen).
  unfold alloc in Hdec. injection Hdec as <- <-. cbn [rd mem].
  eexists; repeat split; [now rewrite Hmem..|exact Hrd|].
  intros r' m'. raw. now apply DecodeDouble_app.
Qed.

Lemma BuildDouble_synced value r m :
  (value < 2 ^ 64)%N ->
  exists v,
    BuildDouble value (mkState r m) = (Ok (Addr (length m)), mkState r (m ++ [v]))
    /\ DoubleValue v = value /\ synced DecodeDouble v.
Proof.
  intros Hv. eexists; split; [reflexivity|]. split; [reflexivity|].
  intros r' m'. raw. rewrite DecodeDouble_app by apply length_Float64ToBytes.
  rewrite BytesToFloat64_Float64ToBytes. unfold uint64.
  now rewrite N.mod_small.
Qed.

(** *** String and Raw *)

Lemma decodeLoop_sound r : forall acc shift saved n raw r',
  decodeLoop r acc shift saved = (Ok (n, raw), r') ->
  exists consumed,
    r = consumed ++ r' /\ raw = saved ++ consumed
    /\ forall rest,
         decodeLoop (consumed ++ rest) acc shift saved = (Ok (n, raw), rest).
Proof.
  induction r as [|b r IH]; intros acc shift saved n raw r' Hdec;
    [discriminate Hdec|].
  cbn [decodeLoop] in Hdec.
  destruct (N.eqb (N.land (Byte.to_N b) 128) 0) eqn:Eflag.
  - injection Hdec as <- <- <-. exists [b]. repeat split.
    intros rest. cbn [app decodeLoop]. now rewrite Eflag.
  - apply IH in Hdec as (consumed & -> & -> & Hre).
    exists (b :: consumed). split; [reflexivity|]. split.
    + now rewrite <- app_assoc.
    + intros rest. cbn [app decodeLoop]. rewrite Eflag. apply Hre.
Qed.

Lemma DecodeAndSaveULEB128_Ok {T} (s : State T) n raw s' :
  DecodeAndSaveULEB128 s = (Ok (n, raw), s') ->
  rd s = raw ++ rd s' /\ mem s' = mem s /\ isULEB128 raw n.
Proof.
  unfold DecodeAndSaveULEB128.
  destruct (decodeLoop (rd s) 0 0 []) as [o r1] eqn:Hloop.
  intros [= -> <-]. apply decodeLoop_sound in Hloop as (consumed & Hrd & Hraw & Hre).
  cbn [app] in Hraw. subst raw. cbn [rd mem]. auto.
Qed.

Lemma DecodeAndSaveULEB128_mem {T} (s : State T) :
  mem (DecodeAndSaveULEB128 s).2 = mem s.
Proof.
  unfold DecodeAndSaveULEB128. now destruct (decodeLoop (rd s) 0 0 []).
Qed.

Lemma DecodeAndSaveULEB128_app {T} raw n rest (m : list T) :
  isULEB128 raw n ->
  DecodeAndSaveULEB128 (mkState (raw ++ rest) m) = (Ok (n, raw), mkState rest m).
Proof.
  intros Hraw. unfold DecodeAndSaveULEB128; cbn [rd mem]. now rewrite Hraw.
Qed.

Lemma isULEB128_EncodeULEB128 v : isULEB128 (EncodeULEB128 v) (uint32 v).
Proof. intros rest. apply EncodeULEB128_decodeLoop. Qed.

Lemma DecodeString_app u n d r m :
  isULEB128 u n -> length d = N.to_nat n ->
  DecodeString (mkState ((u ++ d) ++ r) m)
  = (Ok (Addr (length m)),
     mkState r (m ++ [mkValueString (string_of_list_byte d) (u ++ d)])).
Proof.
  intros Hu Hlen. unfold DecodeString, bind.
  rewrite <- app_assoc, (DecodeAndSaveULEB128_app u n) by assumption.
  rewrite <- Hlen, ReadFull_app. reflexivity.
Qed.

Lemma DecodeString_decodesOne : decodesOne DecodeString.
Proof.
  intros s p s' Hdec. unfold DecodeString, bind in Hdec.
  destruct (DecodeAndSaveULEB128 s) as [[[n u]| |] s1] eqn:Huleb;
    try discriminate Hdec.
  apply DecodeAndSaveULEB128_Ok in Huleb as (Hrd1 & Hmem1 & Hu).
  destruct (ReadFull (N.to_nat n) s1) as [[d| |] s2] eqn:Hread;
    try discriminate Hdec.
  apply ReadFull_Ok in Hread as (Hrd2 & Hmem2 & Hlen).
  unfold alloc in Hdec. injection Hdec as <- <-. cbn [rd mem].
  eexists; repeat split.
  - now rewrite Hmem2, Hmem1.
  - now rewrite Hmem2, Hmem1.
  - raw. now rewrite Hrd1, Hrd2, app_assoc.
  - intros r' m'. raw. now apply (DecodeString_app u n).
Qed.

Lemma uint32_length (l : list byte) :
  (N.of_nat (length l) < 2 ^ 32)%N ->
  N.to_nat (uint32 (uint32 (N.of_nat (length l)))) = length l.
Proof.
  intros Hlen. rewrite !uint32_small by (rewrite ?uint32_small; assumption).
  apply Nat2N.id.
Qed.

Lemma length_list_byte_of_string (s : string) :
  length (list_byte_of_string s) = String.length s.
Proof.
  unfold list_byte_of_string. rewrite length_map.
  induction s as [|a s IH]; cbn; congruence.
Qed.

Lemma BuildString_synced value r m :
  (N.of_nat (String.length value) < 2 ^ 32)%N ->
  exists v,
    BuildString value (mkState r m) = (Ok (Addr (length m)), mkState r (m ++ [v]))
    /\ StringValue v = value /\ synced DecodeString v.
Proof.
  intros Hlen. eexists; split; [reflexivity|]. split; [reflexivity|].
  intros r' m'. raw.
  rewrite (DecodeString_app _ _ _ _ _ (isULEB128_EncodeULEB128 _)).
  - now rewrite string_of_list_byte_of_string.
  - rewrite uint32_length; [reflexivity|].
    now rewrite length_list_byte_of_string.
Qed.

Lemma DecodeRaw_app u n d r m :
  isULEB128 u n -> length d = N.to_nat n ->
  DecodeRaw (mkState ((u ++ d) ++ r) m)
  = (Ok (Addr (length m)), mkState r (m ++ [mkValueRaw d (u ++ d)])).
Proof.
  intros Hu Hlen. unfold DecodeRaw, bind.
  rewrite <- app_assoc, (DecodeAndSaveULEB128_app u n) by assumption.
  rewrite <- Hlen, ReadFull_app. reflexivity.
Qed.

Lemma DecodeRaw_decodesOne : decodesOne DecodeRaw.
Proof.
  intros s p s' Hdec. unfold DecodeRaw, bind in Hdec.
  destruct (DecodeAndSaveULEB128 s) as [[[n u]| |] s1] eqn:Huleb;
    try discriminate Hdec.
  apply DecodeAndSaveULEB128_Ok in Huleb as (Hrd1 & Hmem1 & Hu).
  destruct (ReadFull (N.to_nat n) s1) as [[d| |] s2] eqn:Hread;
    try discriminate Hdec.
  apply ReadFull_Ok in Hread as (Hrd2 & Hmem2 & Hlen).
  unfold alloc in Hdec. injection Hdec as <- <-. cbn [rd mem].
  eexists; repeat split.
  - now rewrite Hmem2, Hmem1.
  - now rewrite Hmem2, Hmem1.
  - raw. now rewrite Hrd1, Hrd2, app_assoc.
  - intros r' m'. raw. now apply (DecodeRaw_app u n).
Qed.

Lemma BuildRaw_synced value r m :
  (N.of_nat (length value) < 2 ^ 32)%N ->
  exists v,
    BuildRaw value (mkState r m) = (Ok (Addr (length m)), mkState r (m ++ [v]))
    /\ RawValue_Value v = value /\ synced DecodeRaw v.
Proof.
  intros Hlen. eexists; split; [reflexivity|]. split; [reflexivity|].
  intros r' m'. raw.
  rewrite (DecodeRaw_app _ _ _ _ _ (isULEB128_EncodeULEB128 _)).
  - reflexivity.
  - now rewrite uint32_length.
Qed.

(** ** Arrays *)

Lemma load_deref {T} (p : ptr) (s : State T) :
  load p s = (match deref (mem s) p with Some v => Ok v | None => Panic end, s).
Proof.
  unfold load, deref. destruct p as [|a]; [reflexivity|].
  now destruct (mem s !! a).
Qed.

Lemma uint8_small n : n < 256 -> uint8 n = n.
Proof. intros Hn. unfold uint8. now apply Nat.mod_small. Qed.

Section ArrayProperties.
Context {T : Type} `{Struct T} `{HasRaw T}.
Variable DecodeElement : M T ptr.

(** The loop that fills the slots of [elements] one by one computes the
    list of the elements decoded in order. *)
Lemma decodeElements_decodeSeq n : forall i elems s,
  length elems = i + n ->
  decodeElements DecodeElement n i elems s
  = (es <- decodeSeq DecodeElement n ;; ret (take i elems ++ es)) s.
Proof.
  induction n as [|n IH]; intros i elems s Hlen.
  - cbn. unfold ret. rewrite app_nil_r, firstn_all2 by lia. reflexivity.
  - cbn [decodeElements decodeSeq]. rewrite bind_assoc.
    destruct (DecodeElement s) as [[e| |] s1] eqn:E.
    + rewrite !(bind_Ok _ _ _ _ _ E), bind_assoc.
      rewrite IH by (rewrite length_insert; lia).
      destruct (decodeSeq DecodeElement n s1) as [[es| |] s2] eqn:E2.
      * rewrite !(bind_Ok _ _ _ _ _ E2). unfold bind, ret.
        rewrite (take_S_r _ i e), <- app_assoc.
        -- rewrite take_insert_ge by lia. reflexivity.
        -- apply list_lookup_insert_eq. lia.
      * now rewrite !(bind_Err _ _ _ _ _ E2).
      * now rewrite !(bind_Panic _ _ _ _ E2).
    + now rewrite !(bind_Err _ _ _ _ _ E).
    + now rewrite !(bind_Panic _ _ _ _ E).
Qed.

Lemma DecodeArray_nil m :
  DecodeArray DecodeElement (mkState [] m) = (Err EOF, mkState [] m).
Proof. reflexivity. Qed.

Lemma DecodeArray_cons b r m :
  DecodeArray DecodeElement (mkState (b :: r) m)
  = (es <- decodeSeq DecodeElement (Byte.to_nat b) ;; ret (mkValueArray es))
      (mkState r m).
Proof.
  unfold DecodeArray.
  rewrite (bind_Ok _ _ _ _ _ (ReadFull_1_cons b r m)).
  erewrite bind_ext
    by (apply decodeElements_decodeSeq; rewrite length_replicate; lia).
  rewrite bind_assoc.
  destruct (decodeSeq DecodeElement (Byte.to_nat b) (mkState r m))
    as [[es| |] s2] eqn:E.
  - now rewrite !(bind_Ok _ _ _ _ _ E).
  - now rewrite !(bind_Err _ _ _ _ _ E).
  - now rewrite !(bind_Panic _ _ _ _ E).
Qed.

Lemma fresh_S (m : list T) v n :
  fresh m (S n) = Addr (length m) :: fresh (m ++ [v]) n.
Proof.
  unfold fresh. cbn [seq map]. rewrite length_app. cbn [length].
  now rewrite Nat.add_1_r.
Qed.

Lemma length_fresh (m : list T) n : length (fresh m n) = n.
Proof. unfold fresh. now rewrite length_map, length_seq. Qed.

Lemma deref_fresh (m vs : list T) :
  Forall2 (fun p v => deref (m ++ vs) p = Some v) (fresh m (length vs)) vs.
Proof.
  revert m. induction vs as [|v vs IH]; intros m; [constructor|].
  cbn [length]. rewrite (fresh_S m v). constructor.
  - cbn [deref]. now apply list_lookup_middle.
  - specialize (IH (m ++ [v])). now rewrite <- app_assoc in IH.
Qed.

Lemma decodeSeq_Ok (Hone : decodesOne DecodeElement) n : forall s es s',
  decodeSeq DecodeElement n s = (Ok es, s') ->
  exists vs,
    length vs = n /\ es = fresh (mem s) n /\ mem s' = mem s ++ vs
    /\ rd s = concat (map RawValue vs) ++ rd s'
    /\ Forall (synced DecodeElement) vs.
Proof.
  induction n as [|n IH]; intros s es s' Hdec.
  - injection Hdec as <- <-. exists []. cbn. now rewrite app_nil_r.
  - cbn [decodeSeq] in Hdec.
    apply bind_Ok_inv in Hdec as (e & s1 & He & Hdec).
    apply bind_Ok_inv in Hdec as (es1 & s2 & Hes & Hret).
    injection Hret as <- <-.
    apply Hone in He as (v & -> & Hm1 & Hr1 & Hv).
    apply IH in Hes as (vs & Hlen & -> & Hm2 & Hr2 & Hvs).
    exists (v :: vs). repeat split.
    + cbn. now rewrite Hlen.
    + now rewrite Hm1, <- fresh_S.
    + now rewrite Hm2, Hm1, <- app_assoc.
    + cbn [map concat]. now rewrite Hr1, Hr2, app_assoc.
    + now constructor.
Qed.

Lemma decodeSeq_synced vs : forall r m,
  Forall (synced DecodeElement) vs ->
  decodeSeq DecodeElement (length vs)
    (mkState (concat (map RawValue vs) ++ r) m)
  = (Ok (fresh m (length vs)), mkState r (m ++ vs)).
Proof.
  induction vs as [|v vs IH]; intros r m Hvs.
  - cbn. now rewrite app_nil_r.
  - apply Forall_cons in Hvs as [Hv Hvs].
    cbn [length decodeSeq map concat]. rewrite <- app_assoc.
    rewrite (bind_Ok _ _ _ _ _ (Hv _ m)).
    rewrite (bind_Ok _ _ _ _ _ (IH _ _ Hvs)).
    unfold ret. now rewrite <- fresh_S, <- app_assoc.
Qed.

(** The loop of [GetRaw] appends the wire bytes of the elements it
    visits, in order. *)
Lemma getRawLoop_spec elems vs r m :
  Forall2 (fun p v => deref m p = Some v) elems vs ->
  forall n i data,
    i + n <= length elems ->
    getRawLoop elems n i data (mkState r m)
    = (Ok (data ++ concat (map RawValue (take n (drop i vs)))), mkState r m).
Proof.
  intros Hall n. induction n as [|n IH]; intros i data Hle.
  - cbn. now rewrite app_nil_r.
  - cbn [getRawLoop].
    destruct (lookup_lt_is_Some_2 elems i ltac:(lia)) as [e He].
    destruct (Forall2_lookup_l _ _ _ _ _ Hall He) as (v & Hv & Hderef).
    rewrite He.
    assert (Hload : load e (mkState r m) = (Ok v, mkState r m)).
    { rewrite load_deref. cbn [mem]. now rewrite Hderef. }
    rewrite (bind_Ok _ _ _ _ _ Hload), IH by lia.
    rewrite (drop_S _ _ _ Hv). cbn [take map concat].
    now rewrite <- app_assoc.
Qed.

Lemma ArrayGetRaw_spec elems vs r m :
  Forall2 (fun p v => deref m p = Some v) elems vs ->
  length elems < 256 ->
  ArrayGetRaw (mkValueArray elems) (mkState r m)
  = (Ok (byte_of_nat (length elems) :: concat (map RawValue vs)), mkState r m).
Proof.
  intros Hall Hlen. unfold ArrayGetRaw; cbn [elements].
  rewrite uint8_small by assumption.
  rewrite (getRawLoop_spec _ _ _ _ Hall) by lia.
  rewrite drop_0, (Forall2_length _ _ _ Hall), firstn_all. reflexivity.
Qed.

(** Encoding what was decoded gives back the bytes consumed. *)
Lemma DecodeArray_GetRaw (Hone : decodesOne DecodeElement) s a s' :
  DecodeArray DecodeElement s = (Ok a, s') ->
  exists raw,
    ArrayGetRaw a s' = (Ok raw, s') /\ rd s = raw ++ rd s'.
Proof.
  destruct s as [[|b r] m]; [discriminate|].
  rewrite DecodeArray_cons. intros Hdec.
  apply bind_Ok_inv in Hdec as (es & s1 & Hes & Hret).
  injection Hret as <- <-.
  apply (decodeSeq_Ok Hone) in Hes as (vs & Hlen & -> & Hm & Hr & _).
  cbn [rd mem] in *. destruct s1 as [r1 m1]; cbn [rd mem] in *. subst m1 r.
  eexists. split.
  - apply ArrayGetRaw_spec.
    + rewrite <- Hlen. apply deref_fresh.
    + rewrite length_fresh. apply to_nat_lt_256.
  - rewrite length_fresh, byte_of_nat_to_nat. reflexivity.
Qed.

(** Decoding what [GetRaw] gives for an array built from at most 255
    synchronised elements allocates a copy of each element, in order. *)
Lemma BuildArray_roundtrip values vs r m :
  Forall2 (fun p v => deref m p = Some v) values vs ->
  length values <= 255 ->
  Forall (synced DecodeElement) vs ->
  exists raw,
    ArrayGetRaw (BuildArray values) (mkState r m) = (Ok raw, mkState r m)
    /\ forall rest,
         DecodeArray DecodeElement (mkState (raw ++ rest) m)
         = (Ok (mkValueArray (fresh m (length vs))), mkState rest (m ++ vs)).
Proof.
  intros Hall Hlen Hvs.
  assert (Hbuild : BuildArray (T := T) values = mkValueArray values).
  { unfold BuildArray.
    destruct (Nat.ltb_spec 255 (length values)); [lia|].
    rewrite uint8_small by lia. now rewrite firstn_all. }
  rewrite Hbuild. eexists. split.
  - apply (ArrayGetRaw_spec _ _ _ _ Hall). lia.
  - intros rest. cbn [app]. rewrite DecodeArray_cons.
    assert (Hn : Byte.to_nat (byte_of_nat (length values)) = length vs).
    { rewrite <- (Forall2_length _ _ _ Hall).
      unfold byte_of_nat. rewrite Byte.to_nat_via_N, to_N_byte_of_N.
      rewrite N.mod_small by lia. apply Nat2N.id. }
    rewrite Hn.
    now rewrite (bind_Ok _ _ _ _ _ (decodeSeq_synced vs rest m Hvs)).
Qed.
End ArrayProperties.

(** * The claims *)

(** ** Booleans on the wire *)

(** C5. [DecodeBoolean] reads exactly one byte, whatever follows it in the
    reader staying unread: the byte 0x00 decodes to the logical value
    [false], the byte 0x01 to [true], and every other byte fails with
    [ErrEntryDataInvalid] and returns no value; none of the three touches a
    struct allocated before.  On an empty reader it returns the read error. *)
Theorem DecodeBoolean_one_byte (b : byte) (r : Reader) (m : list ValueBoolean) :
  DecodeBoolean (mkState (x00 :: r) m)
  = (Ok (Addr (length m)), mkState r (m ++ [mkValueBoolean false [x00]]))
  /\ DecodeBoolean (mkState (x01 :: r) m)
     = (Ok (Addr (length m)), mkState r (m ++ [mkValueBoolean true [x01]]))
  /\ (b <> x00 -> b <> x01 ->
      exists garbage,
        DecodeBoolean (mkState (b :: r) m)
        = (Err ErrEntryDataInvalid, mkState r (m ++ garbage)))
  /\ DecodeBoolean (mkState [] m) = (Err EOF, mkState [] m).
Proof.
  repeat split.
  - now rewrite DecodeBoolean_cons.
  - now rewrite DecodeBoolean_cons.
  - intros H0 H1. rewrite DecodeBoolean_cons.
    rewrite (byte_eqb_neq b BoolFalse H0), (byte_eqb_neq b BoolTrue H1).
    now eexists.
Qed.

Lemma DecodeBoolean_one_byte_witness :
  exists garbage,
    DecodeBoolean (mkState [x02; x01] [])
    = (Err ErrEntryDataInvalid, mkState [x01] ([] ++ garbage)).
Proof.
  apply (DecodeBoolean_one_byte x02 [x01] []); discriminate.
Defined.

(** ** Type tags *)

(** C10. [DecodeEntryType] does not validate the tag: whatever byte it
    reads, it returns that byte as the [EntryType] with a nil error, and
    consumes just that byte; so it does for 0x42 and for the reserved 0xFF.
    The tag is checked by the dispatch of [DecodeEntryValue] only, which
    fails with [ErrEntryNoSuchType] on every byte other than the seven
    value tags, reading nothing. *)
Theorem DecodeEntryType_no_validation (b : byte) (w : World) (r : Reader) :
  DecodeEntryType (withInput (b :: r) w) = ((b, None), withInput r w)
  /\ DecodeEntryType (withInput (x42 :: r) w) = ((x42, None), withInput r w)
  /\ DecodeEntryType (withInput (xff :: r) w) = ((xff, None), withInput r w)
  /\ (~ In b [EntryTypeBoolean; EntryTypeDouble; EntryTypeString;
              EntryTypeRawData; EntryTypeBooleanArr; EntryTypeDoubleArr;
              EntryTypeStringArr] ->
      DecodeEntryValue b w = (Err ErrEntryNoSuchType, w)).
Proof.
  repeat split. intros Hnot. unfold DecodeEntryValue.
  repeat match goal with
         | |- context [Byte.eqb b ?t] =>
             rewrite (byte_eqb_neq b t)
               by (intros ->; apply Hnot; cbn; tauto)
         end.
  reflexivity.
Qed.

Lemma DecodeEntryType_no_validation_witness :
  DecodeEntryValue x42 (start [x00]) = (Err ErrEntryNoSuchType, start [x00]).
Proof.
  apply (DecodeEntryType_no_validation x42 (start [x00]) []).
  cbn. intros [E|[E|[E|[E|[E|[E|[E|[]]]]]]]]; discriminate E.
Defined.

(** ** Array type safety *)

Section ArrayGuards.
Context {T : Type} `{Struct T} `{HasRaw T}.
Variable cast : EntryValue -> option ptr.

Lemma ArrayUpdate_mismatch (array : ValueArray T) index entry s :
  cast entry = None ->
  ArrayUpdate cast array index entry s = (Err ErrEntryCastInvalid, s).
Proof. intros E. unfold ArrayUpdate. now rewrite E. Qed.

Lemma ArrayUpdateSlot_mismatch (array : ValueArray T) index entry s :
  cast entry = None ->
  ArrayUpdateSlot cast array index entry s = (Err ErrEntryCastInvalid, s).
Proof. intros E. unfold ArrayUpdateSlot. now rewrite E. Qed.

Lemma ArrayAdd_mismatch (array : ValueArray T) entry :
  cast entry = None ->
  ArrayAdd cast array entry = (Err ErrEntryCastInvalid, array).
Proof. intros E. unfold ArrayAdd. now rewrite E. Qed.

(** The guard of [Add] is [len > 255]: an array of 255 elements takes
    one more. *)
Lemma ArrayAdd_at_255 (array : ValueArray T) entry p :
  cast entry = Some p ->
  length (elements array) = 255 ->
  ArrayAdd cast array entry = (Ok tt, mkValueArray (elements array ++ [p])).
Proof.
  intros E Hlen. unfold ArrayAdd. rewrite E, Hlen. reflexivity.
Qed.

(** With 256 elements the count byte wraps to 0 and [GetRaw] emits no
    element. *)
Lemma ArrayGetRaw_at_256 (array : ValueArray T) s :
  length (elements array) = 256 ->
  ArrayGetRaw array s = (Ok [x00], s).
Proof.
  intros Hlen. unfold ArrayGetRaw. rewrite Hlen. reflexivity.
Qed.


(** The slot-address form of [Update] never gets past mergo. *)
Lemma ArrayUpdateSlot_fails (array : ValueArray T) index entry s :
  exists e, ArrayUpdateSlot cast array index entry s = (Err e, s).
Proof.
  unfold ArrayUpdateSlot. destruct (cast entry); [|now eexists].
  destruct (Nat.leb _ _); now eexists.
Qed.
End ArrayGuards.

(** C6. For each of the three array types, [Update] and [Add] called with a
    value whose dynamic type is not the pointer to the array's element type
    (a [ValueDouble] handed to a [ValueBooleanArray], any array, the nil
    interface) fail with [ErrEntryCastInvalid]; [Update] leaves every
    allocated struct as it was and [Add] leaves the array as it was. *)
Theorem Update_Add_type_mismatch (entry : EntryValue) (index : byte) :
  (castBoolean entry = None ->
   forall (array : ValueBooleanArray) s,
     ValueBooleanArray_Update array index entry s = (Err ErrEntryCastInvalid, s)
     /\ ValueBooleanArray_Add array entry = (Err ErrEntryCastInvalid, array))
  /\ (castDouble entry = None ->
      forall (array : ValueDoubleArray) s,
        ValueDoubleArray_Update array index entry s = (Err ErrEntryCastInvalid, s)
        /\ ValueDoubleArray_Add array entry = (Err ErrEntryCastInvalid, array))
  /\ (castString entry = None ->
      forall (array : ValueStringArray) s,
        ValueStringArray_Update array index entry s = (Err ErrEntryCastInvalid, s)
        /\ ValueStringArray_Add array entry = (Err ErrEntryCastInvalid, array)).
Proof.
  repeat split.
  - now apply ArrayUpdate_mismatch.
  - now apply ArrayAdd_mismatch.
  - now apply ArrayUpdateSlot_mismatch.
  - now apply ArrayAdd_mismatch.
  - now apply ArrayUpdate_mismatch.
  - now apply ArrayAdd_mismatch.
Qed.

Lemma Update_Add_type_mismatch_witness :
  let s := mkState [] [mkValueBoolean true [x01]] in
  let array := mkValueArray [Addr 0] : ValueBooleanArray in
  ValueBooleanArray_Update array x00 (IsDouble (Addr 0)) s
  = (Err ErrEntryCastInvalid, s)
  /\ ValueBooleanArray_Add array (IsDouble (Addr 0))
     = (Err ErrEntryCastInvalid, array).
Proof.
  intros s array.
  apply (Update_Add_type_mismatch (IsDouble (Addr 0)) x00). reflexivity.
Defined.

(** ** Array capacity *)

(** C1, as the code has it.  [Add] with a value of the matching type on an
    array that holds 255 elements does not fail: it returns a nil error and
    the array holds 256 elements afterwards, for each of the three array
    types.  [GetRaw] of such an array then writes the count byte 0 and no
    element. *)
Theorem Add_accepts_256th (p : ptr) :
  (forall (array : ValueBooleanArray) s,
     length (elements array) = 255 ->
     exists array',
       ValueBooleanArray_Add array (IsBoolean p) = (Ok tt, array')
       /\ length (elements array') = 256
       /\ ValueBooleanArray_GetRaw array' s = (Ok [x00], s))
  /\ (forall (array : ValueDoubleArray) s,
        length (elements array) = 255 ->
        exists array',
          ValueDoubleArray_Add array (IsDouble p) = (Ok tt, array')
          /\ length (elements array') = 256
          /\ ValueDoubleArray_GetRaw array' s = (Ok [x00], s))
  /\ (forall (array : ValueStringArray) s,
        length (elements array) = 255 ->
        exists array',
          ValueStringArray_Add array (IsString p) = (Ok tt, array')
          /\ length (elements array') = 256
          /\ ValueStringArray_GetRaw array' s = (Ok [x00], s)).
Proof.
  repeat split; intros array s Hlen; eexists;
    (split; [now apply ArrayAdd_at_255|]);
    assert (Hlen' : length (elements array ++ [p]) = 256)
      by (rewrite length_app, Hlen; reflexivity);
    (split; [exact Hlen'|now apply ArrayGetRaw_at_256]).
Qed.

Lemma Add_accepts_256th_witness :
  let s := mkState [] [mkValueBoolean true [x01]] in
  exists array',
    ValueBooleanArray_Add (mkValueArray (replicate 255 (Addr 0)))
      (IsBoolean (Addr 0)) = (Ok tt, array')
    /\ length (elements array') = 256
    /\ ValueBooleanArray_GetRaw array' s = (Ok [x00], s).
Proof.
  intros s.
  apply (Add_accepts_256th (Addr 0)). reflexivity.
Defined.

(** ** In-place updates *)

Lemma DecodeBoolean_keeps s p v :
  deref (mem s) p = Some v -> deref (mem (DecodeBoolean s).2) p = Some v.
Proof.
  destruct s as [[|b r] m]; [trivial|]. rewrite DecodeBoolean_cons.
  destruct p as [|a]; [discriminate|]. cbn [deref mem]. intros Hv.
  destruct (Byte.eqb b BoolFalse); [|destruct (Byte.eqb b BoolTrue)];
    cbn [snd mem]; rewrite lookup_app_l; eauto using lookup_lt_Some.
Qed.

Lemma DecodeDouble_Err s e s' : DecodeDouble s = (Err e, s') -> mem s' = mem s.
Proof.
  unfold DecodeDouble, bind. pose proof (ReadFull_mem 8 s) as Hm.
  destruct (ReadFull 8 s) as [[d| |] s1]; try discriminate.
  now intros [= <- <-].
Qed.

Lemma DecodeString_Err s e s' : DecodeString s = (Err e, s') -> mem s' = mem s.
Proof.
  unfold DecodeString, bind. pose proof (DecodeAndSaveULEB128_mem s) as Hm1.
  destruct (DecodeAndSaveULEB128 s) as [[[n u]| |] s1]; try discriminate.
  - pose proof (ReadFull_mem (T := ValueString) (N.to_nat n) s1) as Hm2.
    destruct (ReadFull (N.to_nat n) s1) as [[d| |] s2]; try discriminate.
    intros [= <- <-]. cbn [snd] in *. congruence.
  - now intros [= <- <-].
Qed.

Lemma DecodeRaw_Err s e s' : DecodeRaw s = (Err e, s') -> mem s' = mem s.
Proof.
  unfold DecodeRaw, bind. pose proof (DecodeAndSaveULEB128_mem s) as Hm1.
  destruct (DecodeAndSaveULEB128 s) as [[[n u]| |] s1]; try discriminate.
  - pose proof (ReadFull_mem (T := ValueRaw) (N.to_nat n) s1) as Hm2.
    destruct (ReadFull (N.to_nat n) s1) as [[d| |] s2]; try discriminate.
    intros [= <- <-]. cbn [snd] in *. congruence.
  - now intros [= <- <-].
Qed.

(** C4. For each of the four scalar types, when decoding fails on the
    reader handed to [UpdateRaw] (a truncated stream, or a byte that is no
    boolean), [UpdateRaw] returns the decoder's error, and every struct
    allocated before, the updated one among them, keeps the logical value
    and the wire bytes it had. *)
Theorem UpdateRaw_atomic (entry : ptr) (e : error) :
  (forall s s',
     DecodeBoolean s = (Err e, s') ->
     ValueBoolean_UpdateRaw entry s = (Err e, s')
     /\ forall p v, deref (mem s) p = Some v -> deref (mem s') p = Some v)
  /\ (forall s s',
        DecodeDouble s = (Err e, s') ->
        ValueDouble_UpdateRaw entry s = (Err e, s')
        /\ forall p v, deref (mem s) p = Some v -> deref (mem s') p = Some v)
  /\ (forall s s',
        DecodeString s = (Err e, s') ->
        ValueString_UpdateRaw entry s = (Err e, s')
        /\ forall p v, deref (mem s) p = Some v -> deref (mem s') p = Some v)
  /\ (forall s s',
        DecodeRaw s = (Err e, s') ->
        ValueRaw_UpdateRaw entry s = (Err e, s')
        /\ forall p v, deref (mem s) p = Some v -> deref (mem s') p = Some v).
Proof.
  repeat split; try (now apply bind_Err).
  - intros p v Hv. apply DecodeBoolean_keeps with (s := s) in Hv.
    now rewrite H in Hv.
  - intros p v Hv. now rewrite (DecodeDouble_Err _ _ _ H).
  - intros p v Hv. now rewrite (DecodeString_Err _ _ _ H).
  - intros p v Hv. now rewrite (DecodeRaw_Err _ _ _ H).
Qed.

Lemma UpdateRaw_atomic_witness :
  let old := mkValueString "abc" [x03; "a"; "b"; "c"]%byte in
  let s := mkState [x05; "x"; "y"]%byte [old] in
  ValueString_UpdateRaw (Addr 0) s = (Err ErrUnexpectedEOF, mkState [] [old])
  /\ forall p v, deref (mem s) p = Some v -> deref [old] p = Some v.
Proof.
  intros old s.
  apply (UpdateRaw_atomic (Addr 0) ErrUnexpectedEOF). reflexivity.
Defined.

(** C2, as the code has it.  An update whose new logical value is the zero
    value of its type replaces the wire bytes and keeps the old logical
    value: after [UpdateValue(false)] on a [ValueBoolean] built from [true]
    the struct holds [true] next to the byte 0x00, and after [UpdateValue]
    with the empty string on a [ValueString] built from ["abc"] it holds
    ["abc"] next to the single byte 0x00; [UpdateRaw] on a reader that
    delivers the byte 0x00 does the same.  In each case the update returns
    a nil error and the stored wire bytes no longer decode to the stored
    logical value. *)
Theorem UpdateValue_zero_keeps_old_value :
  (exists p s s',
     BuildBoolean true (mkState [] []) = (Ok p, s)
     /\ ValueBoolean_UpdateValue p false s = (Ok tt, s')
     /\ deref (mem s') p = Some (mkValueBoolean true [x00])
     /\ ~ synced DecodeBoolean (mkValueBoolean true [x00]))
  /\ (exists p s s',
        BuildString "abc" (mkState [] []) = (Ok p, s)
        /\ ValueString_UpdateValue p EmptyString s = (Ok tt, s')
        /\ deref (mem s') p = Some (mkValueString "abc" [x00])
        /\ ~ synced DecodeString (mkValueString "abc" [x00]))
  /\ (exists p s s',
        BuildBoolean true (mkState [x00] []) = (Ok p, s)
        /\ ValueBoolean_UpdateRaw p s = (Ok tt, s')
        /\ deref (mem s') p = Some (mkValueBoolean true [x00])).
Proof.
  repeat split.
  - do 3 eexists. repeat split. intros Hs.
    specialize (Hs [] []). vm_compute in Hs. discriminate Hs.
  - do 3 eexists. repeat split. intros Hs.
    specialize (Hs [] []). vm_compute in Hs. discriminate Hs.
  - do 3 eexists. repeat split.
Qed.

(** C8, as the code has it.  [Update] of a [ValueDoubleArray] never
    succeeds: it hands mergo the address of the slot, a pointer to a
    pointer, which mergo refuses, so with a [ValueDouble] and an index in
    range it returns [ErrNotSupported] and the element keeps its value.
    [Update] of a [ValueBooleanArray] with the value [false] on an element
    holding [true] returns a nil error and leaves the element with the old
    logical value next to the new wire bytes. *)
Theorem ValueDoubleArray_Update_fails (array : ValueDoubleArray)
    (index : byte) (entry : EntryValue) (s : State ValueDouble) :
  (exists e, ValueDoubleArray_Update array index entry s = (Err e, s))
  /\ (let one := mkValueDouble 0x3ff0000000000000%N (Float64ToBytes 0x3ff0000000000000%N) in
      let two := mkValueDouble 0x4000000000000000%N (Float64ToBytes 0x4000000000000000%N) in
      let s1 := mkState [] [one; two] in
      ValueDoubleArray_Update (mkValueArray [Addr 0]) x00 (IsDouble (Addr 1)) s1
      = (Err ErrNotSupported, s1)
      /\ ValueDoubleArray_Get (mkValueArray [Addr 0]) x00 = Ok (IsDouble (Addr 0))
      /\ deref (mem s1) (Addr 0) = Some one)
  /\ (let s2 := mkState [] [mkValueBoolean true [x01]; mkValueBoolean false [x00]] in
      exists s2',
        ValueBooleanArray_Update (mkValueArray [Addr 0]) x00 (IsBoolean (Addr 1)) s2
        = (Ok tt, s2')
        /\ deref (mem s2') (Addr 0) = Some (mkValueBoolean true [x00])).
Proof.
  split; [apply ArrayUpdateSlot_fails|].
  split; [repeat split|].
  eexists. split; reflexivity.
Qed.

(** ** The variable-length integer codec *)

(** C7. [EncodeULEB128] gives 0 -> [0x00], 127 -> [0x7F], 128 ->
    [0x80,0x01], 16384 -> [0x80,0x80,0x01]; the largest 32-bit value
    decodes from its encoding without loss; and for every 32-bit [value]
    the encoding is a complete LEB128 number (continuation bit on all bytes
    but the last) that denotes [value], that no complete LEB128 number
    denoting [value] is shorter than, and that [DecodeAndSaveULEB128] reads
    back as [value], returning the bytes it consumed and leaving the rest of
    the reader. *)
Theorem EncodeULEB128_minimal (value : N) :
  EncodeULEB128 0 = [x00]
  /\ EncodeULEB128 127 = [x7f]
  /\ EncodeULEB128 128 = [x80; x01]
  /\ EncodeULEB128 16384 = [x80; x80; x01]
  /\ DecodeAndSaveULEB128 (T := unit) (mkState (EncodeULEB128 4294967295) [])
     = (Ok (4294967295%N, EncodeULEB128 4294967295), mkState [] [])
  /\ ((value < 2 ^ 32)%N ->
      wellFormedULEB128 (EncodeULEB128 value) = true
      /\ valueULEB128 (EncodeULEB128 value) = value
      /\ (forall bs,
            wellFormedULEB128 bs = true -> valueULEB128 bs = value ->
            length (EncodeULEB128 value) <= length bs)
      /\ (forall T rest (m : list T),
            DecodeAndSaveULEB128 (mkState (EncodeULEB128 value ++ rest) m)
            = (Ok (value, EncodeULEB128 value), mkState rest m))).
Proof.
  do 5 (split; [reflexivity|]).
  intros Hv.
  assert (Hfuel : (uint32 value < 2 ^ (7 * N.of_nat 5))%N).
  { eapply N.lt_trans; [apply uint32_lt|reflexivity]. }
  destruct (encodeLoop_wellFormed 4 _ Hfuel) as [Hwf Hval].
  fold (EncodeULEB128 value) in Hwf, Hval.
  rewrite uint32_small in Hval by assumption.
  repeat split.
  - exact Hwf.
  - exact Hval.
  - intros bs Hbs Hden. apply EncodeULEB128_minimal_length; [assumption|].
    now rewrite uint32_small.
  - intros T rest m. rewrite DecodeAndSaveULEB128_EncodeULEB128.
    now rewrite uint32_small.
Qed.

Lemma EncodeULEB128_minimal_witness :
  wellFormedULEB128 (EncodeULEB128 300) = true
  /\ valueULEB128 (EncodeULEB128 300) = 300%N
  /\ (forall bs,
        wellFormedULEB128 bs = true -> valueULEB128 bs = 300%N ->
        length (EncodeULEB128 300) <= length bs)
  /\ (forall T rest (m : list T),
        DecodeAndSaveULEB128 (mkState (EncodeULEB128 300 ++ rest) m)
        = (Ok (300%N, EncodeULEB128 300), mkState rest m)).
Proof.
  apply (EncodeULEB128_minimal 300). reflexivity.
Defined.

(** ** Array decoding *)

Section ArrayDecoding.
Context {T : Type} `{Struct T} `{HasRaw T}.
Variable DecodeElement : M T ptr.

(** A failure of the element after [k] good ones is the failure of the
    sequence. *)
Lemma decodeSeq_abort k : forall n s es s1 e s2,
  k < n ->
  decodeSeq DecodeElement k s = (Ok es, s1) ->
  DecodeElement s1 = (Err e, s2) ->
  decodeSeq DecodeElement n s = (Err e, s2).
Proof.
  induction k as [|k IH]; intros n s es s1 e s2 Hlt Hk He.
  - injection Hk as <- <-. destruct n as [|n]; [lia|].
    cbn [decodeSeq]. now apply bind_Err.
  - destruct n as [|n]; [lia|]. cbn [decodeSeq] in *.
    apply bind_Ok_inv in Hk as (e0 & s0 & He0 & Hk).
    apply bind_Ok_inv in Hk as (es0 & s0' & Hes0 & Hret).
    injection Hret as <- <-.
    rewrite (bind_Ok _ _ _ _ _ He0). apply bind_Err.
    eapply IH; eauto. lia.
Qed.

Lemma DecodeArray_abort b r m k es s1 e s2 :
  k < Byte.to_nat b ->
  decodeSeq DecodeElement k (mkState r m) = (Ok es, s1) ->
  DecodeElement s1 = (Err e, s2) ->
  DecodeArray DecodeElement (mkState (b :: r) m) = (Err e, s2).
Proof.
  intros Hlt Hk He. rewrite DecodeArray_cons. apply bind_Err.
  eapply decodeSeq_abort; eauto.
Qed.

Lemma DecodeArray_Ok (Hone : decodesOne DecodeElement) b r m a s' :
  DecodeArray DecodeElement (mkState (b :: r) m) = (Ok a, s') ->
  exists vs,
    length vs = Byte.to_nat b
    /\ elements a = fresh m (Byte.to_nat b)
    /\ mem s' = m ++ vs
    /\ r = concat (map RawValue vs) ++ rd s'
    /\ Forall (synced DecodeElement) vs.
Proof.
  rewrite DecodeArray_cons. intros Hdec.
  apply bind_Ok_inv in Hdec as (es & s1 & Hes & Hret).
  injection Hret as <- <-.
  apply (decodeSeq_Ok _ Hone) in Hes as (vs & Hlen & -> & Hm & Hr & Hvs).
  now exists vs.
Qed.
End ArrayDecoding.

(** C9 as stated fails on the last point: the array decoded from
    [0x10, 0x02, 0x01, 0x00] encodes to the three bytes that follow the
    tag, not to the four bytes. *)
Lemma GetRaw_omits_tag :
  exists v w,
    DecodeEntryValueAndType (start [x10; x02; x01; x00]) = ((Ok v, x10), w)
    /\ GetRaw v w = (Ok [x02; x01; x00], w)
    /\ GetRaw v w <> (Ok [x10; x02; x01; x00], w).
Proof.
  do 2 eexists. split; [reflexivity|]. split; [reflexivity|]. discriminate.
Qed.

(** C9, amended.  Each array decoder reads one byte as the element count
    (a read error if there is none) and then runs the decoder of its
    element type that many times, first element first: its result is that
    of the sequence [decodeSeq], so on success the array holds exactly
    [count] elements, freshly allocated in order, and the bytes consumed
    after the count are the wire bytes of the elements one after the other;
    and a failure of the element decoder after [k < count] good elements is
    the failure of the array decoder, with that error.  Through the
    dispatcher, the bytes [0x10, 0x02, 0x01, 0x00] decode to a
    [ValueBooleanArray] holding [true, false], with the tag 0x10 returned
    next to it; [GetRaw] of that array gives the three bytes
    [0x02, 0x01, 0x00] that followed the tag, so that the returned tag
    followed by them is the four bytes again. *)
Theorem DecodeArray_in_order (b : byte) (r : Reader) :
  (forall m,
     DecodeBooleanArray (mkState [] m) = (Err EOF, mkState [] m)
     /\ DecodeBooleanArray (mkState (b :: r) m)
        = (es <- decodeSeq DecodeBoolean (Byte.to_nat b) ;; ret (mkValueArray es))
            (mkState r m)
     /\ (forall a s',
           DecodeBooleanArray (mkState (b :: r) m) = (Ok a, s') ->
           exists vs,
             length vs = Byte.to_nat b
             /\ elements a = fresh m (Byte.to_nat b) /\ mem s' = m ++ vs
             /\ r = concat (map RawValue vs) ++ rd s'
             /\ Forall (synced DecodeBoolean) vs)
     /\ (forall k es s1 e s2,
           k < Byte.to_nat b ->
           decodeSeq DecodeBoolean k (mkState r m) = (Ok es, s1) ->
           DecodeBoolean s1 = (Err e, s2) ->
           DecodeBooleanArray (mkState (b :: r) m) = (Err e, s2)))
  /\ (forall m,
        DecodeDoubleArray (mkState [] m) = (Err EOF, mkState [] m)
        /\ DecodeDoubleArray (mkState (b :: r) m)
           = (es <- decodeSeq DecodeDouble (Byte.to_nat b) ;; ret (mkValueArray es))
               (mkState r m)
        /\ (forall a s',
              DecodeDoubleArray (mkState (b :: r) m) = (Ok a, s') ->
              exists vs,
                length vs = Byte.to_nat b
                /\ elements a = fresh m (Byte.to_nat b) /\ mem s' = m ++ vs
                /\ r = concat (map RawValue vs) ++ rd s'
                /\ Forall (synced DecodeDouble) vs)
        /\ (forall k es s1 e s2,
              k < Byte.to_nat b ->
              decodeSeq DecodeDouble k (mkState r m) = (Ok es, s1) ->
              DecodeDouble s1 = (Err e, s2) ->
              DecodeDoubleArray (mkState (b :: r) m) = (Err e, s2)))
  /\ (forall m,
        DecodeStringArray (mkState [] m) = (Err EOF, mkState [] m)
        /\ DecodeStringArray (mkState (b :: r) m)
           = (es <- decodeSeq DecodeString (Byte.to_nat b) ;; ret (mkValueArray es))
               (mkState r m)
        /\ (forall a s',
              DecodeStringArray (mkState (b :: r) m) = (Ok a, s') ->
              exists vs,
                length vs = Byte.to_nat b
                /\ elements a = fresh m (Byte.to_nat b) /\ mem s' = m ++ vs
                /\ r = concat (map RawValue vs) ++ rd s'
                /\ Forall (synced DecodeString) vs)
        /\ (forall k es s1 e s2,
              k < Byte.to_nat b ->
              decodeSeq DecodeString k (mkState r m) = (Ok es, s1) ->
              DecodeString s1 = (Err e, s2) ->
              DecodeStringArray (mkState (b :: r) m) = (Err e, s2)))
  /\ (exists a w,
        DecodeEntryValueAndType (start [x10; x02; x01; x00])
        = ((Ok (IsBooleanArray a), EntryTypeBooleanArr), w)
        /\ input w = []
        /\ logical (IsBooleanArray a) w = (Ok (LBooleanArray [true; false]), w)
        /\ GetRaw (IsBooleanArray a) w = (Ok [x02; x01; x00], w)
        /\ EntryTypeBooleanArr :: [x02; x01; x00] = [x10; x02; x01; x00]).
Proof.
  split; [|split; [|split]].
  - intros m. split; [reflexivity|]. split; [apply DecodeArray_cons|]. split.
    + intros a s'. apply DecodeArray_Ok, DecodeBoolean_decodesOne.
    + intros k es s1 e s2. apply DecodeArray_abort.
  - intros m. split; [reflexivity|]. split; [apply DecodeArray_cons|]. split.
    + intros a s'. apply DecodeArray_Ok, DecodeDouble_decodesOne.
    + intros k es s1 e s2. apply DecodeArray_abort.
  - intros m. split; [reflexivity|]. split; [apply DecodeArray_cons|]. split.
    + intros a s'. apply DecodeArray_Ok, DecodeString_decodesOne.
    + intros k es s1 e s2. apply DecodeArray_abort.
  - do 2 eexists. repeat split.
Qed.

Lemma DecodeArray_in_order_witness :
  DecodeBooleanArray (mkState [x02; x01; x07; x00] [])
  = (Err ErrEntryDataInvalid,
     mkState [x00] [mkValueBoolean true [x01]; mkValueBoolean false [x07]]).
Proof.
  refine (proj2 (proj2 (proj2 (proj1 (DecodeArray_in_order x02 [x01; x07; x00]) [])))
            1 [Addr 0] (mkState [x07; x00] [mkValueBoolean true [x01]])
            ErrEntryDataInvalid _ _ _ _).
  - vm_compute. lia.
  - reflexivity.
  - reflexivity.
Defined.

(** ** Round trips *)

Lemma loadAll_spec {T} (ps : list ptr) (vs : list T) r m :
  Forall2 (fun p v => deref m p = Some v) ps vs ->
  loadAll ps (mkState r m) = (Ok vs, mkState r m).
Proof.
  induction 1 as [|p v ps vs Hp _ IH]; [reflexivity|].
  cbn [loadAll].
  assert (Hload : load p (mkState r m) = (Ok v, mkState r m)).
  { rewrite load_deref. cbn [mem]. now rewrite Hp. }
  now rewrite (bind_Ok _ _ _ _ _ Hload), (bind_Ok _ _ _ _ _ IH).
Qed.

Section BuildAll.
Context {T A : Type} `{HasRaw T}.
Variable build : A -> M T ptr.
Variable val : T -> A.
Variable Decode : M T ptr.
Variable fit : A -> Prop.
Hypothesis build_synced : forall a r m,
  fit a ->
  exists v,
    build a (mkState r m) = (Ok (Addr (length m)), mkState r (m ++ [v]))
    /\ val v = a /\ synced Decode v.

Lemma buildAll_spec l : forall r m,
  Forall fit l ->
  exists vs,
    buildAll build l (mkState r m)
    = (Ok (fresh m (length l)), mkState r (m ++ vs))
    /\ map val vs = l /\ Forall (synced Decode) vs.
Proof.
  induction l as [|a l IH]; intros r m Hfit.
  - exists []. cbn. now rewrite app_nil_r.
  - apply Forall_cons in Hfit as [Ha Hl].
    destruct (build_synced a r m Ha) as (v & Hb & Hv & Hs).
    destruct (IH r (m ++ [v]) Hl) as (vs & Hbs & Hvs & Hss).
    exists (v :: vs). split; [|split].
    + cbn [buildAll length].
      rewrite (bind_Ok _ _ _ _ _ Hb), (bind_Ok _ _ _ _ _ Hbs).
      unfold ret. now rewrite <- fresh_S, <- app_assoc.
    + cbn [map]. now rewrite Hv, Hvs.
    + now constructor.
Qed.

(** Build the elements, build the array, encode it, decode the bytes:
    the decoded array holds copies of the elements, in order. *)
Lemma array_roundtrip l r m rest :
  length l <= 255 -> Forall fit l ->
  exists ps m1 raw a' m2,
    buildAll build l (mkState r m) = (Ok ps, mkState r m1)
    /\ ArrayGetRaw (BuildArray ps) (mkState r m1) = (Ok raw, mkState r m1)
    /\ DecodeArray Decode (mkState (raw ++ rest) m1) = (Ok a', mkState rest m2)
    /\ (vs <- loadAll (elements a') ;; ret (map val vs)) (mkState rest m2)
       = (Ok l, mkState rest m2).
Proof.
  intros Hlen Hfit.
  destruct (buildAll_spec l r m Hfit) as (vs & Hb & Hval & Hs).
  assert (Hlvs : length vs = length l) by (now rewrite <- Hval, length_map).
  pose proof (deref_fresh m vs) as Hderef. rewrite Hlvs in Hderef.
  destruct (BuildArray_roundtrip Decode (fresh m (length l)) vs r (m ++ vs))
    as (raw & Hraw & Hdec); [assumption|now rewrite length_fresh|assumption|].
  exists (fresh m (length l)), (m ++ vs), raw,
    (mkValueArray (fresh (m ++ vs) (length vs))), ((m ++ vs) ++ vs).
  split; [assumption|]. split; [assumption|]. split; [apply Hdec|].
  cbn [elements].
  now rewrite (bind_Ok _ _ _ _ _
                 (loadAll_spec _ _ rest _ (deref_fresh (m ++ vs) vs))), Hval.
Qed.
End BuildAll.

Lemma GetRaw_decoded {T} `{HasRaw T} (Decode : M T ptr) s p s' :
  decodesOne Decode ->
  Decode s = (Ok p, s') ->
  exists raw,
    (v <- load p ;; ret (RawValue v)) s' = (Ok raw, s') /\ rd s = raw ++ rd s'.
Proof.
  intros Hone Hdec. apply Hone in Hdec as (v & -> & Hm & Hr & _).
  exists (RawValue v). split; [|assumption].
  destruct s' as [r' m']; cbn [mem rd] in *. subst m'.
  now rewrite (bind_Ok _ _ _ _ _ (load_fresh r' (mem s) v)).
Qed.

Lemma onBooleans_inv {A} (m : M ValueBoolean A) w o w' :
  onBooleans m w = (o, w') ->
  exists s,
    m (mkState (input w) (booleans w)) = (o, s)
    /\ w' = mkWorld (rd s) (mem s) (doubles w) (strings w) (raws w).
Proof.
  unfold onBooleans. destruct (m _) as [o1 s]. intros [= <- <-]. now exists s.
Qed.

Lemma onDoubles_inv {A} (m : M ValueDouble A) w o w' :
  onDoubles m w = (o, w') ->
  exists s,
    m (mkState (input w) (doubles w)) = (o, s)
    /\ w' = mkWorld (rd s) (booleans w) (mem s) (strings w) (raws w).
Proof.
  unfold onDoubles. destruct (m _) as [o1 s]. intros [= <- <-]. now exists s.
Qed.

Lemma onStrings_inv {A} (m : M ValueString A) w o w' :
  onStrings m w = (o, w') ->
  exists s,
    m (mkState (input w) (strings w)) = (o, s)
    /\ w' = mkWorld (rd s) (booleans w) (doubles w) (mem s) (raws w).
Proof.
  unfold onStrings. destruct (m _) as [o1 s]. intros [= <- <-]. now exists s.
Qed.

Lemma onRaws_inv {A} (m : M ValueRaw A) w o w' :
  onRaws m w = (o, w') ->
  exists s,
    m (mkState (input w) (raws w)) = (o, s)
    /\ w' = mkWorld (rd s) (booleans w) (doubles w) (strings w) (mem s).
Proof.
  unfold onRaws. destruct (m _) as [o1 s]. intros [= <- <-]. now exists s.
Qed.

(** Encoding a decoded value gives back the bytes its decoding consumed. *)
Lemma DecodeEntryValue_GetRaw t w ev w' :
  DecodeEntryValue t w = (Ok ev, w') ->
  exists raw, GetRaw ev w' = (Ok raw, w') /\ input w = raw ++ input w'.
Proof.
  unfold DecodeEntryValue.
  destruct (Byte.eqb t EntryTypeBoolean);
    [|destruct (Byte.eqb t EntryTypeDouble);
      [|destruct (Byte.eqb t EntryTypeString);
        [|destruct (Byte.eqb t EntryTypeRawData);
          [|destruct (Byte.eqb t EntryTypeBooleanArr);
            [|destruct (Byte.eqb t EntryTypeDoubleArr);
              [|destruct (Byte.eqb t EntryTypeStringArr)]]]]]];
    intros Hdec.
  - apply onBooleans_inv in Hdec as (s & Hdec & ->).
    apply bind_Ok_inv in Hdec as (p & s1 & Hp & [= <- <-]).
    destruct (GetRaw_decoded _ _ _ _ DecodeBoolean_decodesOne Hp) as (raw & Hg & Hr).
    exists raw. cbn [GetRaw input]. unfold onBooleans, ValueBoolean_GetRaw.
    cbn [input booleans doubles strings raws].
    destruct s1 as [r1 m1]. cbn [rd mem] in *.
    split; [|assumption].
    change (fun v : ValueBoolean => ret (BooleanRawValue v))
      with (fun v : ValueBoolean => ret (T := ValueBoolean) (RawValue v)).
    now rewrite Hg.
  - apply onDoubles_inv in Hdec as (s & Hdec & ->).
    apply bind_Ok_inv in Hdec as (p & s1 & Hp & [= <- <-]).
    destruct (GetRaw_decoded _ _ _ _ DecodeDouble_decodesOne Hp) as (raw & Hg & Hr).
    exists raw. cbn [GetRaw input]. unfold onDoubles, ValueDouble_GetRaw.
    cbn [input booleans doubles strings raws].
    destruct s1 as [r1 m1]. cbn [rd mem] in *.
    split; [|assumption].
    change (fun v : ValueDouble => ret (DoubleRawValue v))
      with (fun v : ValueDouble => ret (T := ValueDouble) (RawValue v)).
    now rewrite Hg.
  - apply onStrings_inv in Hdec as (s & Hdec & ->).
    apply bind_Ok_inv in Hdec as (p & s1 & Hp & [= <- <-]).
    destruct (GetRaw_decoded _ _ _ _ DecodeString_decodesOne Hp) as (raw & Hg & Hr).
    exists raw. cbn [GetRaw input]. unfold onStrings, ValueString_GetRaw.
    cbn [input booleans doubles strings raws].
    destruct s1 as [r1 m1]. cbn [rd mem] in *.
    split; [|assumption].
    change (fun v : ValueString => ret (StringRawValue v))
      with (fun v : ValueString => ret (T := ValueString) (RawValue v)).
    now rewrite Hg.
  - apply onRaws_inv in Hdec as (s & Hdec & ->).
    apply bind_Ok_inv in Hdec as (p & s1 & Hp & [= <- <-]).
    destruct (GetRaw_decoded _ _ _ _ DecodeRaw_decodesOne Hp) as (raw & Hg & Hr).
    exists raw. cbn [GetRaw input]. unfold onRaws, ValueRaw_GetRaw.
    cbn [input booleans doubles strings raws].
    destruct s1 as [r1 m1]. cbn [rd mem] in *.
    split; [|assumption].
    change (fun v : ValueRaw => ret (RawRawValue v))
      with (fun v : ValueRaw => ret (T := ValueRaw) (RawValue v)).
    now rewrite Hg.
  - apply onBooleans_inv in Hdec as (s & Hdec & ->).
    apply bind_Ok_inv in Hdec as (a & s1 & Ha & [= <- <-]).
    destruct (DecodeArray_GetRaw _ DecodeBoolean_decodesOne _ _ _ Ha)
      as (raw & Hg & Hr).
    exists raw. cbn [GetRaw input]. unfold onBooleans, ValueBooleanArray_GetRaw.
    cbn [input booleans doubles strings raws].
    destruct s1 as [r1 m1]. cbn [rd mem] in *.
    split; [|assumption]. now rewrite Hg.
  - apply onDoubles_inv in Hdec as (s & Hdec & ->).
    apply bind_Ok_inv in Hdec as (a & s1 & Ha & [= <- <-]).
    destruct (DecodeArray_GetRaw _ DecodeDouble_decodesOne _ _ _ Ha)
      as (raw & Hg & Hr).
    exists raw. cbn [GetRaw input]. unfold onDoubles, ValueDoubleArray_GetRaw.
    cbn [input booleans doubles strings raws].
    destruct s1 as [r1 m1]. cbn [rd mem] in *.
    split; [|assumption]. now rewrite Hg.
  - apply onStrings_inv in Hdec as (s & Hdec & ->).
    apply bind_Ok_inv in Hdec as (a & s1 & Ha & [= <- <-]).
    destruct (DecodeArray_GetRaw _ DecodeString_decodesOne _ _ _ Ha)
      as (raw & Hg & Hr).
    exists raw. cbn [GetRaw input]. unfold onStrings, ValueStringArray_GetRaw.
    cbn [input booleans doubles strings raws].
    destruct s1 as [r1 m1]. cbn [rd mem] in *.
    split; [|assumption]. now rewrite Hg.
  - discriminate Hdec.
Qed.

(** Closes one step of a computation lifted to the world, given the
    equation [E] of the step on the store it works on. *)
Ltac lifted E :=
  unfold Build, GetRaw, logical, withInput, onBooleans, onDoubles, onStrings,
    onRaws, ValueBoolean_GetRaw, ValueDouble_GetRaw, ValueString_GetRaw,
    ValueRaw_GetRaw, ValueBooleanArray_GetRaw, ValueDoubleArray_GetRaw,
    ValueStringArray_GetRaw, BuildBooleanArray, BuildDoubleArray,
    BuildStringArray;
  cbn [input booleans doubles strings raws];
  first [ rewrite (bind_Ok _ _ _ _ _ E) | rewrite E ];
  reflexivity.

(** C3 as stated fails for a logical sequence of more than 255 values:
    [BuildBooleanArray] keeps the first 255, so encoding 256 values and
    decoding the bytes yields 255. *)
Lemma roundtrip_loses_256th :
  let v := LBooleanArray (replicate 256 true) in
  exists ev w1 raw ev' w2,
    Build v (start []) = (Ok ev, w1)
    /\ GetRaw ev w1 = (Ok raw, w1)
    /\ DecodeEntryValue (wireType v) (withInput raw w1) = (Ok ev', w2)
    /\ logical ev' w2 = (Ok (LBooleanArray (replicate 255 true)), w2)
    /\ logical ev' w2 <> (Ok v, w2).
Proof.
  intros v. do 5 eexists.
  split; [vm_compute; reflexivity|].
  split; [vm_compute; reflexivity|].
  split; [vm_compute; reflexivity|].
  split; [vm_compute; reflexivity|].
  vm_compute. discriminate.
Qed.

(** C3, amended.  For every variant and every logical value that fits the
    wire format (a float that is a 64-bit pattern, a string or raw blob
    shorter than 2^32 bytes, an array of at most 255 such elements):
    building the value with the [Build] function of its variant, taking
    its [GetRaw] bytes and decoding them under the variant's tag succeeds,
    consumes exactly those bytes and yields a value whose logical value is
    the one started from.  And for every tag and reader on which
    [DecodeEntryValue] succeeds, [GetRaw] of the decoded value is, byte for
    byte, what the decoder consumed from the reader. *)
Theorem roundtrip (v : Logical) (t : EntryType) (w : World) (rest : Reader) :
  (fits v ->
   exists ev w1 raw ev' w2,
     Build v w = (Ok ev, w1)
     /\ GetRaw ev w1 = (Ok raw, w1)
     /\ DecodeEntryValue (wireType v) (withInput (raw ++ rest) w1) = (Ok ev', w2)
     /\ input w2 = rest
     /\ logical ev' w2 = (Ok v, w2))
  /\ (forall ev w',
        DecodeEntryValue t w = (Ok ev, w') ->
        exists raw, GetRaw ev w' = (Ok raw, w') /\ input w = raw ++ input w').
Proof.
  split; [|apply DecodeEntryValue_GetRaw].
  destruct w as [r bs ds ss rs].
  destruct v as [b|f|s|d|l|l|l]; cbn [fits wireType]; intros Hfit.
  - destruct (BuildBoolean_synced b r bs) as (v & Hb & Hv & Hs).
    exists (IsBoolean (Addr (length bs))), (mkWorld r (bs ++ [v]) ds ss rs),
      (RawValue v), (IsBoolean (Addr (length (bs ++ [v])))),
      (mkWorld rest ((bs ++ [v]) ++ [v]) ds ss rs).
    split; [lifted Hb|]. split; [lifted (load_fresh r bs v)|].
    split; [change (DecodeEntryValue EntryTypeBoolean)
              with (onBooleans (p <- DecodeBoolean ;; ret (IsBoolean p)));
            lifted (Hs rest (bs ++ [v]))|].
    split; [reflexivity|]. rewrite <- Hv.
    lifted (load_fresh rest (bs ++ [v]) v).
  - destruct (BuildDouble_synced f r ds Hfit) as (v & Hb & Hv & Hs).
    exists (IsDouble (Addr (length ds))), (mkWorld r bs (ds ++ [v]) ss rs),
      (RawValue v), (IsDouble (Addr (length (ds ++ [v])))),
      (mkWorld rest bs ((ds ++ [v]) ++ [v]) ss rs).
    split; [lifted Hb|]. split; [lifted (load_fresh r ds v)|].
    split; [change (DecodeEntryValue EntryTypeDouble)
              with (onDoubles (p <- DecodeDouble ;; ret (IsDouble p)));
            lifted (Hs rest (ds ++ [v]))|].
    split; [reflexivity|]. rewrite <- Hv.
    lifted (load_fresh rest (ds ++ [v]) v).
  - destruct (BuildString_synced s r ss Hfit) as (v & Hb & Hv & Hs).
    exists (IsString (Addr (length ss))), (mkWorld r bs ds (ss ++ [v]) rs),
      (RawValue v), (IsString (Addr (length (ss ++ [v])))),
      (mkWorld rest bs ds ((ss ++ [v]) ++ [v]) rs).
    split; [lifted Hb|]. split; [lifted (load_fresh r ss v)|].
    split; [change (DecodeEntryValue EntryTypeString)
              with (onStrings (p <- DecodeString ;; ret (IsString p)));
            lifted (Hs rest (ss ++ [v]))|].
    split; [reflexivity|]. rewrite <- Hv.
    lifted (load_fresh rest (ss ++ [v]) v).
  - destruct (BuildRaw_synced d r rs Hfit) as (v & Hb & Hv & Hs).
    exists (IsRaw (Addr (length rs))), (mkWorld r bs ds ss (rs ++ [v])),
      (RawValue v), (IsRaw (Addr (length (rs ++ [v])))),
      (mkWorld rest bs ds ss ((rs ++ [v]) ++ [v])).
    split; [lifted Hb|]. split; [lifted (load_fresh r rs v)|].
    split; [change (DecodeEntryValue EntryTypeRawData)
              with (onRaws (p <- DecodeRaw ;; ret (IsRaw p)));
            lifted (Hs rest (rs ++ [v]))|].
    split; [reflexivity|]. rewrite <- Hv.
    lifted (load_fresh rest (rs ++ [v]) v).
  - destruct (array_roundtrip BuildBoolean BooleanValue DecodeBoolean
                (fun _ => True) (fun a r m _ => BuildBoolean_synced a r m)
                l r bs rest Hfit) as (ps & m1 & raw & a' & m2 & Hb & Hg & Hd & Hl).
    { now apply Forall_forall. }
    exists (IsBooleanArray (BuildArray ps)), (mkWorld r m1 ds ss rs), raw,
      (IsBooleanArray a'), (mkWorld rest m2 ds ss rs).
    split; [lifted Hb|]. split; [lifted Hg|].
    split; [change (DecodeEntryValue EntryTypeBooleanArr)
              with (onBooleans (a <- DecodeBooleanArray ;; ret (IsBooleanArray a)));
            lifted Hd|].
    split; [reflexivity|].
    apply bind_Ok_inv in Hl as (vs & s2 & Hvs & [= <- ->]).
    lifted Hvs.
  - destruct Hfit as [Hlen Hfit].
    destruct (array_roundtrip BuildDouble DoubleValue DecodeDouble
                fitsDouble BuildDouble_synced
                l r ds rest Hlen Hfit) as (ps & m1 & raw & a' & m2 & Hb & Hg & Hd & Hl).
    exists (IsDoubleArray (BuildArray ps)), (mkWorld r bs m1 ss rs), raw,
      (IsDoubleArray a'), (mkWorld rest bs m2 ss rs).
    split; [lifted Hb|]. split; [lifted Hg|].
    split; [change (DecodeEntryValue EntryTypeDoubleArr)
              with (onDoubles (a <- DecodeDoubleArray ;; ret (IsDoubleArray a)));
            lifted Hd|].
    split; [reflexivity|].
    apply bind_Ok_inv in Hl as (vs & s2 & Hvs & [= <- ->]).
    lifted Hvs.
  - destruct Hfit as [Hlen Hfit].
    destruct (array_roundtrip BuildString StringValue DecodeString
                fitsString BuildString_synced
                l r ss rest Hlen Hfit) as (ps & m1 & raw & a' & m2 & Hb & Hg & Hd & Hl).
    exists (IsStringArray (BuildArray ps)), (mkWorld r bs ds m1 rs), raw,
      (IsStringArray a'), (mkWorld rest bs ds m2 rs).
    split; [lifted Hb|]. split; [lifted Hg|].
    split; [change (DecodeEntryValue EntryTypeStringArr)
              with (onStrings (a <- DecodeStringArray ;; ret (IsStringArray a)));
            lifted Hd|].
    split; [reflexivity|].
    apply bind_Ok_inv in Hl as (vs & s2 & Hvs & [= <- ->]).
    lifted Hvs.
Qed.

Lemma roundtrip_witness :
  (exists ev w1 raw ev' w2,
     Build (LStringArray ["ab"; EmptyString]%string) (start []) = (Ok ev, w1)
     /\ GetRaw ev w1 = (Ok raw, w1)
     /\ DecodeEntryValue EntryTypeStringArr (withInput (raw ++ [x07]) w1)
        = (Ok ev', w2)
     /\ input w2 = [x07]
     /\ logical ev' w2 = (Ok (LStringArray ["ab"; EmptyString]%string), w2))
  /\ (exists raw,
        GetRaw (IsBoolean (Addr 0)) (mkWorld [x07] [mkValueBoolean true [x01]] [] [] [])
        = (Ok raw, mkWorld [x07] [mkValueBoolean true [x01]] [] [] [])
        /\ [x01; x07] = raw ++ [x07]).
Proof.
  split.
  - apply (roundtrip (LStringArray ["ab"; EmptyString]%string) x00 (start []) [x07]).
    cbn. split; [lia|]. repeat constructor.
  - apply (roundtrip (LBoolean true) EntryTypeBoolean (start [x01; x07]) []).
    reflexivity.
Defined.

(** * Further properties of entry.go *)

(** ** Arrays: Get, Build, Add *)

Section ArrayAccess.
Context {T : Type} `{Struct T} `{HasRaw T}.
Variable cast : EntryValue -> option ptr.

Lemma ArrayGet_in_range (array : ValueArray T) index :
  length (elements array) <= 255 ->
  ArrayGet array index
  = match elements array !! Byte.to_nat index with
    | Some e => Ok e
    | None => Err ErrArrayIndexOutOfBounds
    end.
Proof.
  intros Hlen. unfold ArrayGet. rewrite uint8_small by lia.
  destruct (Nat.leb_spec (length (elements array)) (Byte.to_nat index)) as [Hle|Hlt].
  - now rewrite (lookup_ge_None_2 _ _ Hle).
  - destruct (lookup_lt_is_Some_2 _ _ Hlt) as [e He]. now rewrite He.
Qed.

Lemma ArrayGet_wrapped (array : ValueArray T) index :
  length (elements array) = 256 ->
  ArrayGet array index = Err ErrArrayIndexOutOfBounds.
Proof. intros Hlen. unfold ArrayGet. now rewrite Hlen. Qed.

Lemma ArrayUpdate_wrapped (array : ValueArray T) index entry elem s :
  cast entry = Some elem ->
  length (elements array) = 256 ->
  ArrayUpdate cast array index entry s = (Err ErrArrayIndexOutOfBounds, s).
Proof. intros Hc Hlen. unfold ArrayUpdate. now rewrite Hc, Hlen. Qed.

Lemma ArrayUpdate_out_of_bounds (array : ValueArray T) index entry elem s :
  cast entry = Some elem ->
  length (elements array) <= 255 ->
  length (elements array) <= Byte.to_nat index ->
  ArrayUpdate cast array index entry s = (Err ErrArrayIndexOutOfBounds, s).
Proof.
  intros Hc Hlen Hle. unfold ArrayUpdate. rewrite Hc, uint8_small by lia.
  now destruct (Nat.leb_spec (length (elements array)) (Byte.to_nat index)); [|lia].
Qed.

Lemma ArrayUpdateSlot_out_of_bounds (array : ValueArray T) index entry elem s :
  cast entry = Some elem ->
  length (elements array) <= 255 ->
  length (elements array) <= Byte.to_nat index ->
  ArrayUpdateSlot cast array index entry s = (Err ErrArrayIndexOutOfBounds, s).
Proof.
  intros Hc Hlen Hle. unfold ArrayUpdateSlot. rewrite Hc, uint8_small by lia.
  now destruct (Nat.leb_spec (length (elements array)) (Byte.to_nat index)); [|lia].
Qed.

Lemma BuildArray_take (values : list ptr) :
  elements (BuildArray (T := T) values) = take 255 values.
Proof.
  unfold BuildArray; cbn [elements].
  destruct (Nat.ltb_spec 255 (length values)) as [Hgt|Hle]; [reflexivity|].
  rewrite uint8_small by lia. now rewrite !firstn_all2 by lia.
Qed.

Lemma ArrayAdd_appends (array : ValueArray T) entry p :
  cast entry = Some p ->
  length (elements array) <= 255 ->
  ArrayAdd cast array entry = (Ok tt, mkValueArray (elements array ++ [p])).
Proof.
  intros Hc Hlen. unfold ArrayAdd. rewrite Hc.
  now destruct (Nat.ltb_spec 255 (length (elements array))); [lia|].
Qed.



Lemma ArrayGet_after_Add (array : ValueArray T) entry p index :
  cast entry = Some p ->
  length (elements array) < 255 ->
  exists array',
    ArrayAdd cast array entry = (Ok tt, array')
    /\ ArrayGet array' (byte_of_nat (length (elements array))) = Ok p
    /\ (Byte.to_nat index < length (elements array) ->
        ArrayGet array' index = ArrayGet array index).
Proof.
  intros Hc Hlen. eexists. split; [apply (ArrayAdd_appends array entry p Hc); lia|].
  assert (Hlen' : length (elements array ++ [p]) <= 255)
    by (rewrite length_app; cbn; lia).
  split.
  - rewrite ArrayGet_in_range by exact Hlen'. cbn [elements].
    unfold byte_of_nat. rewrite Byte.to_nat_via_N, to_N_byte_of_N.
    rewrite N.mod_small by lia. rewrite Nat2N.id.
    now rewrite list_lookup_middle.
  - intros Hi. rewrite !ArrayGet_in_range by (exact Hlen' || lia).
    cbn [elements]. now rewrite lookup_app_l.
Qed.
End ArrayAccess.

(** X1. On an array of at most 255 elements, [Get] returns the element
    stored at [index], wrapped in the interface with the array's element
    type, when [index] is below the length, and fails with
    [ErrArrayIndexOutOfBounds] otherwise; it never panics.  The same for
    the three array types. *)
Theorem Get_in_range (index : byte) :
  (forall array : ValueBooleanArray,
     length (elements array) <= 255 ->
     ValueBooleanArray_Get array index
     = match elements array !! Byte.to_nat index with
       | Some e => Ok (IsBoolean e)
       | None => Err ErrArrayIndexOutOfBounds
       end)
  /\ (forall array : ValueDoubleArray,
        length (elements array) <= 255 ->
        ValueDoubleArray_Get array index
        = match elements array !! Byte.to_nat index with
          | Some e => Ok (IsDouble e)
          | None => Err ErrArrayIndexOutOfBounds
          end)
  /\ (forall array : ValueStringArray,
        length (elements array) <= 255 ->
        ValueStringArray_Get array index
        = match elements array !! Byte.to_nat index with
          | Some e => Ok (IsString e)
          | None => Err ErrArrayIndexOutOfBounds
          end).
Proof.
  repeat split; intros array Hlen;
    unfold ValueBooleanArray_Get, ValueDoubleArray_Get, ValueStringArray_Get;
    rewrite ArrayGet_in_range by assumption;
    now destruct (elements array !! Byte.to_nat index).
Qed.

Lemma Get_in_range_witness :
  ValueBooleanArray_Get (mkValueArray [Addr 4; Addr 7]) x01
  = match [Addr 4; Addr 7] !! Byte.to_nat x01 with
    | Some e => Ok (IsBoolean e)
    | None => Err ErrArrayIndexOutOfBounds
    end.
Proof.
  apply (Get_in_range x01). cbn. lia.
Defined.

(** X2. Once an array holds 256 elements, which [Add] allows, the length
    converted to [uint8] is 0: [Get] fails with [ErrArrayIndexOutOfBounds]
    at every index, and so does [Update] with a value of the element type,
    leaving all structs as they were.  No element of such an array can be
    read or updated through the array. *)
Theorem Get_Update_after_wrap (index : byte) (p : ptr) :
  (forall (array : ValueBooleanArray) s,
     length (elements array) = 256 ->
     ValueBooleanArray_Get array index = Err ErrArrayIndexOutOfBounds
     /\ ValueBooleanArray_Update array index (IsBoolean p) s
        = (Err ErrArrayIndexOutOfBounds, s))
  /\ (forall (array : ValueDoubleArray) s,
        length (elements array) = 256 ->
        ValueDoubleArray_Get array index = Err ErrArrayIndexOutOfBounds
        /\ ValueDoubleArray_Update array index (IsDouble p) s
           = (Err ErrArrayIndexOutOfBounds, s))
  /\ (forall (array : ValueStringArray) s,
        length (elements array) = 256 ->
        ValueStringArray_Get array index = Err ErrArrayIndexOutOfBounds
        /\ ValueStringArray_Update array index (IsString p) s
           = (Err ErrArrayIndexOutOfBounds, s)).
Proof.
  repeat split;
    unfold ValueBooleanArray_Get, ValueDoubleArray_Get, ValueStringArray_Get,
      ValueBooleanArray_Update, ValueDoubleArray_Update, ValueStringArray_Update,
      ArrayUpdateSlot;
    try (now rewrite ArrayGet_wrapped);
    try (now apply ArrayUpdate_wrapped with (elem := p)).
  cbn [castDouble]. now rewrite H.
Qed.

Lemma Get_Update_after_wrap_witness :
  let array : ValueBooleanArray := mkValueArray (replicate 256 (Addr 0)) in
  let s := mkState [] [mkValueBoolean true [x01]] in
  ValueBooleanArray_Get array x00 = Err ErrArrayIndexOutOfBounds
  /\ ValueBooleanArray_Update array x00 (IsBoolean (Addr 0)) s
     = (Err ErrArrayIndexOutOfBounds, s).
Proof.
  intros array s. apply (Get_Update_after_wrap x00 (Addr 0)). reflexivity.
Defined.

(** X3. [Update] with a value of the element type and an index at or past
    the length of an array of at most 255 elements fails with
    [ErrArrayIndexOutOfBounds] and changes no struct, for the three array
    types ([ValueDoubleArray] included, whose [Update] checks the index
    before it calls mergo). *)
Theorem Update_out_of_bounds (index : byte) (p : ptr) :
  (forall (array : ValueBooleanArray) s,
     length (elements array) <= 255 ->
     length (elements array) <= Byte.to_nat index ->
     ValueBooleanArray_Update array index (IsBoolean p) s
     = (Err ErrArrayIndexOutOfBounds, s))
  /\ (forall (array : ValueDoubleArray) s,
        length (elements array) <= 255 ->
        length (elements array) <= Byte.to_nat index ->
        ValueDoubleArray_Update array index (IsDouble p) s
        = (Err ErrArrayIndexOutOfBounds, s))
  /\ (forall (array : ValueStringArray) s,
        length (elements array) <= 255 ->
        length (elements array) <= Byte.to_nat index ->
        ValueStringArray_Update array index (IsString p) s
        = (Err ErrArrayIndexOutOfBounds, s)).
Proof.
  repeat split; intros array s Hlen Hle.
  - now apply ArrayUpdate_out_of_bounds with (elem := p).
  - now apply ArrayUpdateSlot_out_of_bounds with (elem := p).
  - now apply ArrayUpdate_out_of_bounds with (elem := p).
Qed.

Lemma Update_out_of_bounds_witness :
  let s := mkState [] [mkValueDouble 0%N (Float64ToBytes 0%N)] in
  ValueDoubleArray_Update (mkValueArray [Addr 0]) x01 (IsDouble (Addr 0)) s
  = (Err ErrArrayIndexOutOfBounds, s).
Proof.
  intros s. apply (Update_out_of_bounds x01 (Addr 0)); cbn; lia.
Defined.

(** X4. [BuildBooleanArray], [BuildDoubleArray] and [BuildStringArray] keep
    the first 255 of the given pointers, in order, and drop the rest
    without an error: the array built never holds more than 255 elements,
    and holds all of them when at most 255 are given. *)
Theorem BuildArray_keeps_first_255 (values : list ptr) :
  elements (BuildBooleanArray values) = take 255 values
  /\ elements (BuildDoubleArray values) = take 255 values
  /\ elements (BuildStringArray values) = take 255 values
  /\ length (take 255 values) <= 255
  /\ (length values <= 255 -> take 255 values = values).
Proof.
  repeat split; try apply BuildArray_take.
  - rewrite length_take. lia.
  - intros Hlen. now apply firstn_all2.
Qed.

Lemma BuildArray_keeps_first_255_witness :
  take 255 [Addr 0; Addr 1] = [Addr 0; Addr 1].
Proof.
  apply (BuildArray_keeps_first_255 [Addr 0; Addr 1]). cbn. lia.
Defined.

(** X5. [Add] with a value of the element type on an array of fewer than
    255 elements succeeds and appends the pointer: afterwards [Get] at the
    old length returns the value added, and [Get] at every index below the
    old length returns what it returned before.  The same for the three
    array types. *)
Theorem Add_then_Get (p : ptr) (index : byte) :
  (forall array : ValueBooleanArray,
     length (elements array) < 255 ->
     exists array',
       ValueBooleanArray_Add array (IsBoolean p) = (Ok tt, array')
       /\ elements array' = elements array ++ [p]
       /\ ValueBooleanArray_Get array' (byte_of_nat (length (elements array)))
          = Ok (IsBoolean p)
       /\ (Byte.to_nat index < length (elements array) ->
           ValueBooleanArray_Get array' index = ValueBooleanArray_Get array index))
  /\ (forall array : ValueDoubleArray,
        length (elements array) < 255 ->
        exists array',
          ValueDoubleArray_Add array (IsDouble p) = (Ok tt, array')
          /\ elements array' = elements array ++ [p]
          /\ ValueDoubleArray_Get array' (byte_of_nat (length (elements array)))
             = Ok (IsDouble p)
          /\ (Byte.to_nat index < length (elements array) ->
              ValueDoubleArray_Get array' index = ValueDoubleArray_Get array index))
  /\ (forall array : ValueStringArray,
        length (elements array) < 255 ->
        exists array',
          ValueStringArray_Add array (IsString p) = (Ok tt, array')
          /\ elements array' = elements array ++ [p]
          /\ ValueStringArray_Get array' (byte_of_nat (length (elements array)))
             = Ok (IsString p)
          /\ (Byte.to_nat index < length (elements array) ->
              ValueStringArray_Get array' index = ValueStringArray_Get array index)).
Proof.
  repeat split; intros array Hlen.
  - destruct (ArrayGet_after_Add castBoolean array (IsBoolean p) p index eq_refl Hlen)
      as (array' & Hadd & Hget & Hold).
    exists array'. split; [exact Hadd|]. split.
    { unfold ArrayAdd in Hadd. cbn [castBoolean] in Hadd.
      destruct (Nat.ltb 255 (length (elements array))); now inversion Hadd. }
    unfold ValueBooleanArray_Get. rewrite Hget. split; [reflexivity|].
    intros Hi. now rewrite (Hold Hi).
  - destruct (ArrayGet_after_Add castDouble array (IsDouble p) p index eq_refl Hlen)
      as (array' & Hadd & Hget & Hold).
    exists array'. split; [exact Hadd|]. split.
    { unfold ArrayAdd in Hadd. cbn [castDouble] in Hadd.
      destruct (Nat.ltb 255 (length (elements array))); now inversion Hadd. }
    unfold ValueDoubleArray_Get. rewrite Hget. split; [reflexivity|].
    intros Hi. now rewrite (Hold Hi).
  - destruct (ArrayGet_after_Add castString array (IsString p) p index eq_refl Hlen)
      as (array' & Hadd & Hget & Hold).
    exists array'. split; [exact Hadd|]. split.
    { unfold ArrayAdd in Hadd. cbn [castString] in Hadd.
      destruct (Nat.ltb 255 (length (elements array))); now inversion Hadd. }
    unfold ValueStringArray_Get. rewrite Hget. split; [reflexivity|].
    intros Hi. now rewrite (Hold Hi).
Qed.

Lemma Add_then_Get_witness :
  exists array',
    ValueStringArray_Add (mkValueArray [Addr 3]) (IsString (Addr 5)) = (Ok tt, array')
    /\ elements array' = [Addr 3] ++ [Addr 5]
    /\ ValueStringArray_Get array' (byte_of_nat 1) = Ok (IsString (Addr 5))
    /\ (Byte.to_nat x00 < 1 ->
        ValueStringArray_Get array' x00
        = ValueStringArray_Get (mkValueArray [Addr 3]) x00).
Proof.
  apply (Add_then_Get (Addr 5) x00). cbn. lia.
Defined.



(** ** Arrays: GetRaw *)

Section ArrayEncoding.
Context {T : Type} `{Struct T} `{HasRaw T}.
Variable cast : EntryValue -> option ptr.

Lemma ArrayGetRaw_general elems (vs : list T) r m :
  Forall2 (fun p v => deref m p = Some v) elems vs ->
  ArrayGetRaw (mkValueArray elems) (mkState r m)
  = (Ok (byte_of_nat (length elems mod 256)
         :: concat (map RawValue (take (length elems mod 256) vs))),
     mkState r m).
Proof.
  intros Hall. unfold ArrayGetRaw, uint8; cbn [elements].
  rewrite (getRawLoop_spec _ _ _ _ Hall).
  - now rewrite drop_0.
  - rewrite Nat.add_0_l. apply Nat.Div0.mod_le.
Qed.

Lemma ArrayGetRaw_after_Add (array : ValueArray T) entry p (vs : list T) v r m :
  cast entry = Some p ->
  length (elements array) < 255 ->
  Forall2 (fun p v => deref m p = Some v) (elements array) vs ->
  deref m p = Some v ->
  ArrayGetRaw array (mkState r m)
  = (Ok (byte_of_nat (length (elements array)) :: concat (map RawValue vs)),
     mkState r m)
  /\ ArrayGetRaw (ArrayAdd cast array entry).2 (mkState r m)
     = (Ok (byte_of_nat (S (length (elements array)))
            :: concat (map RawValue vs) ++ RawValue v),
        mkState r m).
Proof.
  intros Hc Hlen Hall Hp. split.
  - destruct array as [elems]. cbn [elements] in *.
    apply ArrayGetRaw_spec; [assumption|lia].
  - rewrite (ArrayAdd_appends cast array entry p Hc) by lia. cbn [snd].
    rewrite (ArrayGetRaw_spec _ (vs ++ [v])).
    + rewrite length_app, map_app, concat_app. cbn [length map concat].
      now rewrite Nat.add_1_r, app_nil_r.
    + apply Forall2_app; [assumption|]. now repeat constructor.
    + rewrite length_app. cbn. lia.
Qed.

Lemma getRawLoop_pure elems n : forall i data (s : State T),
  (getRawLoop elems n i data s).2 = s.
Proof.
  induction n as [|n IH]; intros i data s; [reflexivity|].
  cbn [getRawLoop]. destruct (elems !! i) as [e|]; [|reflexivity].
  unfold bind. rewrite load_deref.
  destruct (deref (mem s) e); [apply IH|reflexivity].
Qed.

Lemma ArrayGetRaw_pure (array : ValueArray T) (s : State T) :
  (ArrayGetRaw array s).2 = s.
Proof. apply getRawLoop_pure. Qed.
End ArrayEncoding.

(** X7. [GetRaw] of an array whose pointers are all allocated writes one
    count byte, the length modulo 256, followed by the wire bytes of the
    first (length modulo 256) elements in order, read through the pointers
    at the time of the call.  For at most 255 elements that is the count
    and every element; it does not panic.  The same for the three array
    types. *)
Theorem Array_GetRaw_layout (elems : list ptr) (r : Reader) :
  (forall (m : list ValueBoolean) vs,
     Forall2 (fun p v => deref m p = Some v) elems vs ->
     ValueBooleanArray_GetRaw (mkValueArray elems) (mkState r m)
     = (Ok (byte_of_nat (length elems mod 256)
            :: concat (map BooleanRawValue (take (length elems mod 256) vs))),
        mkState r m))
  /\ (forall (m : list ValueDouble) vs,
        Forall2 (fun p v => deref m p = Some v) elems vs ->
        ValueDoubleArray_GetRaw (mkValueArray elems) (mkState r m)
        = (Ok (byte_of_nat (length elems mod 256)
               :: concat (map DoubleRawValue (take (length elems mod 256) vs))),
           mkState r m))
  /\ (forall (m : list ValueString) vs,
        Forall2 (fun p v => deref m p = Some v) elems vs ->
        ValueStringArray_GetRaw (mkValueArray elems) (mkState r m)
        = (Ok (byte_of_nat (length elems mod 256)
               :: concat (map StringRawValue (take (length elems mod 256) vs))),
           mkState r m)).
Proof.
  repeat split; intros m vs Hall; now apply ArrayGetRaw_general.
Qed.

Lemma Array_GetRaw_layout_witness :
  let m := [mkValueBoolean true [x01]; mkValueBoolean false [x00]] in
  ValueBooleanArray_GetRaw (mkValueArray [Addr 1; Addr 0; Addr 1]) (mkState [] m)
  = (Ok (byte_of_nat 3
         :: concat (map BooleanRawValue
                      (take 3 [mkValueBoolean false [x00]; mkValueBoolean true [x01];
                               mkValueBoolean false [x00]]))),
     mkState [] m).
Proof.
  intros m.
  apply (Array_GetRaw_layout [Addr 1; Addr 0; Addr 1] []).
  repeat constructor.
Defined.

(** X8. [Add] extends the encoding: for an array of fewer than 255
    allocated elements and an allocated value of the element type, [GetRaw]
    after [Add] is [GetRaw] before it with the count byte raised by one
    and the wire bytes of the value appended.  The same for the three
    array types. *)
Theorem Add_extends_GetRaw (p : ptr) (r : Reader) :
  (forall (array : ValueBooleanArray) m vs v,
     length (elements array) < 255 ->
     Forall2 (fun p v => deref m p = Some v) (elements array) vs ->
     deref m p = Some v ->
     ValueBooleanArray_GetRaw array (mkState r m)
     = (Ok (byte_of_nat (length (elements array))
            :: concat (map BooleanRawValue vs)), mkState r m)
     /\ ValueBooleanArray_GetRaw (ValueBooleanArray_Add array (IsBoolean p)).2
          (mkState r m)
        = (Ok (byte_of_nat (S (length (elements array)))
               :: concat (map BooleanRawValue vs) ++ BooleanRawValue v),
           mkState r m))
  /\ (forall (array : ValueDoubleArray) m vs v,
        length (elements array) < 255 ->
        Forall2 (fun p v => deref m p = Some v) (elements array) vs ->
        deref m p = Some v ->
        ValueDoubleArray_GetRaw array (mkState r m)
        = (Ok (byte_of_nat (length (elements array))
               :: concat (map DoubleRawValue vs)), mkState r m)
        /\ ValueDoubleArray_GetRaw (ValueDoubleArray_Add array (IsDouble p)).2
             (mkState r m)
           = (Ok (byte_of_nat (S (length (elements array)))
                  :: concat (map DoubleRawValue vs) ++ DoubleRawValue v),
              mkState r m))
  /\ (forall (array : ValueStringArray) m vs v,
        length (elements array) < 255 ->
        Forall2 (fun p v => deref m p = Some v) (elements array) vs ->
        deref m p = Some v ->
        ValueStringArray_GetRaw array (mkState r m)
        = (Ok (byte_of_nat (length (elements array))
               :: concat (map StringRawValue vs)), mkState r m)
        /\ ValueStringArray_GetRaw (ValueStringArray_Add array (IsString p)).2
             (mkState r m)
           = (Ok (byte_of_nat (S (length (elements array)))
                  :: concat (map StringRawValue vs) ++ StringRawValue v),
              mkState r m)).
Proof.
  split; [|split]; intros array m vs v Hlen Hall Hp.
  - now apply (ArrayGetRaw_after_Add castBoolean array (IsBoolean p) p).
  - now apply (ArrayGetRaw_after_Add castDouble array (IsDouble p) p).
  - now apply (ArrayGetRaw_after_Add castString array (IsString p) p).
Qed.

Lemma Add_extends_GetRaw_witness :
  let m := [mkValueBoolean true [x01]; mkValueBoolean false [x00]] in
  let array : ValueBooleanArray := mkValueArray [Addr 0] in
  ValueBooleanArray_GetRaw array (mkState [] m)
  = (Ok (byte_of_nat 1 :: concat (map BooleanRawValue [mkValueBoolean true [x01]])),
     mkState [] m)
  /\ ValueBooleanArray_GetRaw (ValueBooleanArray_Add array (IsBoolean (Addr 1))).2
       (mkState [] m)
     = (Ok (byte_of_nat 2
            :: concat (map BooleanRawValue [mkValueBoolean true [x01]])
               ++ BooleanRawValue (mkValueBoolean false [x00])),
        mkState [] m).
Proof.
  intros m array.
  apply (proj1 (Add_extends_GetRaw (Addr 1) []) array m
           [mkValueBoolean true [x01]] (mkValueBoolean false [x00])).
  - cbn. lia.
  - repeat constructor.
  - reflexivity.
Defined.

(** ** In-place updates: what the merge keeps and what it replaces *)

Lemma deepMerge_ValueBoolean (d v : ValueBoolean) :
  BooleanRawValue v <> [] ->
  deepMerge true d v
  = mkValueBoolean (BooleanValue d || BooleanValue v) (BooleanRawValue v).
Proof.
  intros Hraw. unfold deepMerge, Struct_ValueBoolean, mergeField.
  unfold isEmptyValue, Empty_bool, Empty_slice.
  destruct (BooleanRawValue v) as [|b raw]; [contradiction|].
  destruct (BooleanValue v), (BooleanValue d); reflexivity.
Qed.

Lemma deepMerge_ValueDouble (d v : ValueDouble) :
  DoubleRawValue v <> [] ->
  deepMerge true d v
  = mkValueDouble (if isEmptyValue (DoubleValue v) then DoubleValue d
                   else DoubleValue v)
      (DoubleRawValue v).
Proof.
  intros Hraw. unfold deepMerge, Struct_ValueDouble, mergeField.
  destruct (DoubleRawValue v) as [|b raw] eqn:E; [contradiction|].
  unfold isEmptyValue at 2, Empty_slice. cbn [length Nat.eqb negb andb orb].
  now destruct (isEmptyValue (DoubleValue v)).
Qed.

Lemma deepMerge_ValueString (d v : ValueString) :
  StringRawValue v <> [] ->
  deepMerge true d v
  = mkValueString (if isEmptyValue (StringValue v) then StringValue d
                   else StringValue v)
      (StringRawValue v).
Proof.
  intros Hraw. unfold deepMerge, Struct_ValueString, mergeField.
  destruct (StringRawValue v) as [|b raw] eqn:E; [contradiction|].
  unfold isEmptyValue at 2, Empty_slice. cbn [length Nat.eqb negb andb orb].
  now destruct (isEmptyValue (StringValue v)).
Qed.

Lemma deepMerge_ValueRaw (d v : ValueRaw) :
  RawRawValue v <> [] ->
  deepMerge true d v
  = mkValueRaw (if isEmptyValue (RawValue_Value v) then RawValue_Value d
                else RawValue_Value v)
      (RawRawValue v).
Proof.
  intros Hraw. unfold deepMerge, Struct_ValueRaw, mergeField.
  destruct (RawRawValue v) as [|b raw] eqn:E; [contradiction|].
  unfold isEmptyValue at 2, Empty_slice. cbn [length Nat.eqb negb andb orb].
  now destruct (isEmptyValue (RawValue_Value v)).
Qed.

Lemma EncodeULEB128_nonempty value rest : EncodeULEB128 value ++ rest <> [].
Proof.
  unfold EncodeULEB128. cbn [encodeLoop].
  now destruct (N.eqb (N.shiftr (uint32 value) 7) 0).
Qed.

Lemma Float64ToBytes_nonempty f : Float64ToBytes f <> [].
Proof.
  intros E. pose proof (length_Float64ToBytes f) as Hlen.
  rewrite E in Hlen. discriminate Hlen.
Qed.

(** The shape shared by [UpdateValue] and [UpdateRaw]: make a new struct
    at the first free address, then merge it onto the entry. *)
Lemma make_then_merge {T} `{Struct T} (make : M T ptr) a (d v : T) r' (s : State T) :
  mem s !! a = Some d ->
  make s = (Ok (Addr (length (mem s))), mkState r' (mem s ++ [v])) ->
  (newEntry <- make ;;
   x <- load newEntry ;;
   MergeWithOverwrite (DstStruct (Addr a)) (SrcStruct x)) s
  = (Ok tt, mkState r' (<[a := deepMerge true d v]> (mem s) ++ [v])).
Proof.
  intros Hd Hmake. rewrite (bind_Ok _ _ _ _ _ Hmake).
  rewrite (bind_Ok _ _ _ _ _ (load_fresh r' (mem s) v)).
  rewrite MergeWithOverwrite_struct with (d := d).
  - cbn [rd mem]. now rewrite insert_app_l by eauto using lookup_lt_Some.
  - cbn [mem]. rewrite lookup_app_l; eauto using lookup_lt_Some.
Qed.

(** X9. [UpdateValue] on an allocated entry returns a nil error, reads
    nothing, and changes no other struct allocated before.  It always
    replaces the entry's wire bytes by the encoding of the new value, and
    it replaces the logical value only when the new value is not the zero
    value of its type: a [ValueBoolean] ends with the disjunction of the
    old and the new boolean, a [ValueDouble], [ValueString] or [ValueRaw]
    keeps its old logical value when given a zero float, the empty string
    or an empty slice. *)
Theorem UpdateValue_merges (a : nat) (s_rd : Reader) :
  (forall m d value,
     m !! a = Some d ->
     exists built,
       ValueBoolean_UpdateValue (Addr a) value (mkState s_rd m)
       = (Ok tt,
          mkState s_rd
            (<[a := mkValueBoolean (BooleanValue d || value)
                      (if value then [BoolTrue] else [BoolFalse])]> m ++ [built])))
  /\ (forall m d value,
        m !! a = Some d ->
        exists built,
          ValueDouble_UpdateValue (Addr a) value (mkState s_rd m)
          = (Ok tt,
             mkState s_rd
               (<[a := mkValueDouble
                         (if isEmptyValue value then DoubleValue d else value)
                         (Float64ToBytes value)]> m ++ [built])))
  /\ (forall m d value,
        m !! a = Some d ->
        exists built,
          ValueString_UpdateValue (Addr a) value (mkState s_rd m)
          = (Ok tt,
             mkState s_rd
               (<[a := mkValueString
                         (if isEmptyValue value then StringValue d else value)
                         (EncodeULEB128
                            (uint32 (N.of_nat (length (list_byte_of_string value))))
                          ++ list_byte_of_string value)]> m ++ [built])))
  /\ (forall m d value,
        m !! a = Some d ->
        exists built,
          ValueRaw_UpdateValue (Addr a) value (mkState s_rd m)
          = (Ok tt,
             mkState s_rd
               (<[a := mkValueRaw
                         (if isEmptyValue value then RawValue_Value d else value)
                         (EncodeULEB128 (uint32 (N.of_nat (length value)))
                          ++ value)]> m ++ [built]))).
Proof.
  repeat split; intros m d value Hd; eexists.
  - unfold ValueBoolean_UpdateValue.
    rewrite (make_then_merge _ a d _ s_rd (mkState s_rd m) Hd eq_refl).
    rewrite deepMerge_ValueBoolean by (now destruct value). cbn [mem].
    reflexivity.
  - unfold ValueDouble_UpdateValue.
    rewrite (make_then_merge _ a d _ s_rd (mkState s_rd m) Hd eq_refl).
    rewrite deepMerge_ValueDouble by apply Float64ToBytes_nonempty.
    reflexivity.
  - unfold ValueString_UpdateValue.
    rewrite (make_then_merge _ a d _ s_rd (mkState s_rd m) Hd eq_refl).
    rewrite deepMerge_ValueString by apply EncodeULEB128_nonempty.
    reflexivity.
  - unfold ValueRaw_UpdateValue.
    rewrite (make_then_merge _ a d _ s_rd (mkState s_rd m) Hd eq_refl).
    rewrite deepMerge_ValueRaw by apply EncodeULEB128_nonempty.
    reflexivity.
Qed.

Lemma UpdateValue_merges_witness :
  exists built,
    ValueString_UpdateValue (Addr 0) "xy"
      (mkState [] [mkValueString "abc" [x03; "a"; "b"; "c"]%byte])
    = (Ok tt,
       mkState []
         (<[0 := mkValueString
                   (if isEmptyValue "xy"%string
                    then StringValue (mkValueString "abc" [x03; "a"; "b"; "c"]%byte)
                    else "xy"%string)
                   (EncodeULEB128
                      (uint32 (N.of_nat (length (list_byte_of_string "xy"))))
                    ++ list_byte_of_string "xy")]>
            [mkValueString "abc" [x03; "a"; "b"; "c"]%byte] ++ [built])).
Proof.
  apply (UpdateValue_merges 0 []). reflexivity.
Defined.

Lemma synced_raw_nonempty {T} `{HasRaw T} (Decode : M T ptr) (v : T) :
  (forall m, (Decode (mkState [] m)).1 = Err EOF) ->
  synced Decode v -> RawValue v <> [].
Proof.
  intros Hnil Hs E. specialize (Hs [] []). rewrite E in Hs. cbn [app] in Hs.
  specialize (Hnil []). rewrite Hs in Hnil. discriminate Hnil.
Qed.

Lemma decode_then_merge {T} `{Struct T} `{HasRaw T} (Decode : M T ptr)
    (s : State T) p s1 a d :
  decodesOne Decode ->
  Decode s = (Ok p, s1) ->
  mem s !! a = Some d ->
  exists v,
    mem s1 = mem s ++ [v] /\ rd s = RawValue v ++ rd s1 /\ synced Decode v
    /\ (newEntry <- Decode ;;
        x <- load newEntry ;;
        MergeWithOverwrite (DstStruct (Addr a)) (SrcStruct x)) s
       = (Ok tt, mkState (rd s1) (<[a := deepMerge true d v]> (mem s) ++ [v])).
Proof.
  intros Hone Hdec Hd.
  destruct (Hone _ _ _ Hdec) as (v & -> & Hm & Hr & Hs).
  exists v. repeat split; try assumption.
  apply make_then_merge; [assumption|].
  rewrite Hdec. destruct s1 as [r1 m1]. cbn [rd mem] in *. now subst m1.
Qed.

(** X10. A successful [UpdateRaw] on an allocated entry consumes from the
    reader exactly the bytes its decoder consumes, returns a nil error and
    changes no other struct allocated before.  It always replaces the
    entry's wire bytes by the bytes consumed, and it replaces the logical
    value only when the decoded value is not the zero value of its type (a
    [ValueBoolean] ends with the disjunction of the old and the decoded
    boolean). *)
Theorem UpdateRaw_merges (a : nat) (p : ptr) :
  (forall s s1 d,
     DecodeBoolean s = (Ok p, s1) -> mem s !! a = Some d ->
     exists v,
       rd s = BooleanRawValue v ++ rd s1
       /\ ValueBoolean_UpdateRaw (Addr a) s
          = (Ok tt,
             mkState (rd s1)
               (<[a := mkValueBoolean (BooleanValue d || BooleanValue v)
                         (BooleanRawValue v)]> (mem s) ++ [v])))
  /\ (forall s s1 d,
        DecodeDouble s = (Ok p, s1) -> mem s !! a = Some d ->
        exists v,
          rd s = DoubleRawValue v ++ rd s1
          /\ ValueDouble_UpdateRaw (Addr a) s
             = (Ok tt,
                mkState (rd s1)
                  (<[a := mkValueDouble
                            (if isEmptyValue (DoubleValue v) then DoubleValue d
                             else DoubleValue v)
                            (DoubleRawValue v)]> (mem s) ++ [v])))
  /\ (forall s s1 d,
        DecodeString s = (Ok p, s1) -> mem s !! a = Some d ->
        exists v,
          rd s = StringRawValue v ++ rd s1
          /\ ValueString_UpdateRaw (Addr a) s
             = (Ok tt,
                mkState (rd s1)
                  (<[a := mkValueString
                            (if isEmptyValue (StringValue v) then StringValue d
                             else StringValue v)
                            (StringRawValue v)]> (mem s) ++ [v])))
  /\ (forall s s1 d,
        DecodeRaw s = (Ok p, s1) -> mem s !! a = Some d ->
        exists v,
          rd s = RawRawValue v ++ rd s1
          /\ ValueRaw_UpdateRaw (Addr a) s
             = (Ok tt,
                mkState (rd s1)
                  (<[a := mkValueRaw
                            (if isEmptyValue (RawValue_Value v) then RawValue_Value d
                             else RawValue_Value v)
                            (RawRawValue v)]> (mem s) ++ [v]))).
Proof.
  repeat split; intros s s1 d Hdec Hd.
  - destruct (decode_then_merge _ _ _ _ _ _ DecodeBoolean_decodesOne Hdec Hd)
      as (v & _ & Hr & Hs & Hupd).
    exists v. split; [exact Hr|]. unfold ValueBoolean_UpdateRaw. rewrite Hupd.
    rewrite deepMerge_ValueBoolean; [reflexivity|].
    now apply (synced_raw_nonempty DecodeBoolean).
  - destruct (decode_then_merge _ _ _ _ _ _ DecodeDouble_decodesOne Hdec Hd)
      as (v & _ & Hr & Hs & Hupd).
    exists v. split; [exact Hr|]. unfold ValueDouble_UpdateRaw. rewrite Hupd.
    rewrite deepMerge_ValueDouble; [reflexivity|].
    now apply (synced_raw_nonempty DecodeDouble).
  - destruct (decode_then_merge _ _ _ _ _ _ DecodeString_decodesOne Hdec Hd)
      as (v & _ & Hr & Hs & Hupd).
    exists v. split; [exact Hr|]. unfold ValueString_UpdateRaw. rewrite Hupd.
    rewrite deepMerge_ValueString; [reflexivity|].
    now apply (synced_raw_nonempty DecodeString).
  - destruct (decode_then_merge _ _ _ _ _ _ DecodeRaw_decodesOne Hdec Hd)
      as (v & _ & Hr & Hs & Hupd).
    exists v. split; [exact Hr|]. unfold ValueRaw_UpdateRaw. rewrite Hupd.
    rewrite deepMerge_ValueRaw; [reflexivity|].
    now apply (synced_raw_nonempty DecodeRaw).
Qed.

Lemma UpdateRaw_merges_witness :
  let s := mkState [x01; x09] [mkValueBoolean false [x00]] in
  let s1 := mkState [x09] [mkValueBoolean false [x00]; mkValueBoolean true [x01]] in
  exists v,
    rd s = BooleanRawValue v ++ rd s1
    /\ ValueBoolean_UpdateRaw (Addr 0) s
       = (Ok tt,
          mkState (rd s1)
            (<[0 := mkValueBoolean
                      (BooleanValue (mkValueBoolean false [x00]) || BooleanValue v)
                      (BooleanRawValue v)]> (mem s) ++ [v])).
Proof.
  intros s s1.
  apply (proj1 (UpdateRaw_merges 0 (Addr 1)) s s1 (mkValueBoolean false [x00]));
    reflexivity.
Defined.

(** ** Arrays: Update *)



(** ** Scalar decoders and builders *)

(** X12. A successful [DecodeBoolean], [DecodeDouble], [DecodeString] or
    [DecodeRaw] allocates exactly one struct, at the first free address,
    and returns the pointer to it; the structs allocated before are not
    touched; the bytes consumed from the reader are exactly the wire bytes
    stored in the struct; and those wire bytes, decoded again from any
    reader, give an equal struct. *)
Theorem Decode_allocates_one_synced :
  decodesOne DecodeBoolean /\ decodesOne DecodeDouble
  /\ decodesOne DecodeString /\ decodesOne DecodeRaw.
Proof.
  split; [apply DecodeBoolean_decodesOne|].
  split; [apply DecodeDouble_decodesOne|].
  split; [apply DecodeString_decodesOne|apply DecodeRaw_decodesOne].
Qed.

(** X13. [BuildBoolean], [BuildDouble], [BuildString] and [BuildRaw] never
    fail and read nothing: each allocates one struct at the first free
    address, holding the given logical value.  When the value fits the
    wire format (a 64-bit pattern, fewer than 2^32 bytes), the wire bytes
    stored with it decode to an equal struct. *)
Theorem Build_allocates_one_synced (r : Reader) :
  (forall value m,
     exists v,
       BuildBoolean value (mkState r m)
       = (Ok (Addr (length m)), mkState r (m ++ [v]))
       /\ BooleanValue v = value /\ synced DecodeBoolean v)
  /\ (forall value m,
        exists v,
          BuildDouble value (mkState r m)
          = (Ok (Addr (length m)), mkState r (m ++ [v]))
          /\ DoubleValue v = value
          /\ (fitsDouble value -> synced DecodeDouble v))
  /\ (forall value m,
        exists v,
          BuildString value (mkState r m)
          = (Ok (Addr (length m)), mkState r (m ++ [v]))
          /\ StringValue v = value
          /\ (fitsString value -> synced DecodeString v))
  /\ (forall value m,
        exists v,
          BuildRaw value (mkState r m)
          = (Ok (Addr (length m)), mkState r (m ++ [v]))
          /\ RawValue_Value v = value
          /\ (fitsRaw value -> synced DecodeRaw v)).
Proof.
  split; [intros value m; apply BuildBoolean_synced|].
  split; [|split]; intros value m; eexists;
    (split; [reflexivity|]); (split; [reflexivity|]); intros Hfit.
  - destruct (BuildDouble_synced value r m Hfit) as (v & Hb & _ & Hs).
    unfold BuildDouble, alloc in Hb. cbn [rd mem] in Hb. injection Hb as Hb.
    apply app_inv_head in Hb. now injection Hb as <-.
  - destruct (BuildString_synced value r m Hfit) as (v & Hb & _ & Hs).
    unfold BuildString, alloc in Hb. cbn [rd mem] in Hb. injection Hb as Hb.
    apply app_inv_head in Hb. now injection Hb as <-.
  - destruct (BuildRaw_synced value r m Hfit) as (v & Hb & _ & Hs).
    unfold BuildRaw, alloc in Hb. cbn [rd mem] in Hb. injection Hb as Hb.
    apply app_inv_head in Hb. now injection Hb as <-.
Qed.

Lemma Build_allocates_one_synced_witness :
  exists v,
    BuildString "ab" (mkState [x07] [])
    = (Ok (Addr 0), mkState [x07] [v])
    /\ StringValue v = "ab"%string
    /\ synced DecodeString v.
Proof.
  destruct (proj1 (proj2 (proj2 (Build_allocates_one_synced [x07]))) "ab"%string [])
    as (v & Hb & Hv & Hs).
  exists v. split; [exact Hb|]. split; [exact Hv|].
  apply Hs. vm_compute. reflexivity.
Defined.

Lemma ReadFull_short {T} n (r : Reader) (m : list T) :
  length r < n ->
  ReadFull n (mkState r m)
  = (Err (match r with [] => EOF | _ :: _ => ErrUnexpectedEOF end), mkState [] m).
Proof.
  intros Hlt. unfold ReadFull; cbn [rd mem].
  destruct (Nat.eqb_spec n 0); [lia|].
  destruct r as [|b r]; [reflexivity|]. cbn [length Nat.eqb].
  now destruct (Nat.ltb_spec (S (length r)) n); [|cbn [length] in Hlt; lia].
Qed.

(** X14. Truncated input.  [DecodeDouble] on a reader with fewer than 8
    bytes, and [DecodeString] and [DecodeRaw] on a reader that ends before
    the payload their length prefix announces is complete, fail with the
    read error of [io.ReadFull], [io.EOF] when no payload byte was left
    and [io.ErrUnexpectedEOF] when some were; the reader is drained and no
    struct is allocated. *)
Theorem Decode_truncated (m_d : list ValueDouble) (m_s : list ValueString)
    (m_r : list ValueRaw) (r u d : list byte) (n : N) :
  (length r < 8 ->
   DecodeDouble (mkState r m_d)
   = (Err (match r with [] => EOF | _ :: _ => ErrUnexpectedEOF end),
      mkState [] m_d))
  /\ (isULEB128 u n -> length d < N.to_nat n ->
      DecodeString (mkState (u ++ d) m_s)
      = (Err (match d with [] => EOF | _ :: _ => ErrUnexpectedEOF end),
         mkState [] m_s)
      /\ DecodeRaw (mkState (u ++ d) m_r)
         = (Err (match d with [] => EOF | _ :: _ => ErrUnexpectedEOF end),
            mkState [] m_r)).
Proof.
  split.
  - intros Hlt. unfold DecodeDouble. apply bind_Err. now apply ReadFull_short.
  - intros Hu Hlt. split.
    + unfold DecodeString.
      rewrite (bind_Ok _ _ _ _ _ (DecodeAndSaveULEB128_app u n d m_s Hu)).
      apply bind_Err. now apply ReadFull_short.
    + unfold DecodeRaw.
      rewrite (bind_Ok _ _ _ _ _ (DecodeAndSaveULEB128_app u n d m_r Hu)).
      apply bind_Err. now apply ReadFull_short.
Qed.

Lemma Decode_truncated_witness :
  DecodeString (mkState (EncodeULEB128 3 ++ ["a"; "b"]%byte) [])
  = (Err ErrUnexpectedEOF, mkState [] [])
  /\ DecodeRaw (mkState (EncodeULEB128 3 ++ ["a"; "b"]%byte) [])
     = (Err ErrUnexpectedEOF, mkState [] []).
Proof.
  apply (Decode_truncated [] [] [] [] (EncodeULEB128 3) ["a"; "b"]%byte 3).
  - apply (isULEB128_EncodeULEB128 3).
  - cbn. lia.
Defined.

(** ** Flags, tags and the dispatcher *)

(** X15. [DecodeEntryFlag] consumes one byte and accepts exactly the three
    flags 0x00 (temporary), 0x01 (persistent) and 0xFE (reserved), which it
    returns with a nil error; for every other byte, 0xFF included, it
    returns [EntryFlagUndef] with [ErrEntryFlagNoSuchType]; on an empty
    reader it returns [EntryFlagUndef] with the read error. *)
Theorem DecodeEntryFlag_three_flags (b : byte) (r : Reader) (w : World) :
  (In b [EntryFlagTemporary; EntryFlagPersistent; EntryFlagReserved] ->
   DecodeEntryFlag (withInput (b :: r) w) = ((b, None), withInput r w))
  /\ (~ In b [EntryFlagTemporary; EntryFlagPersistent; EntryFlagReserved] ->
      DecodeEntryFlag (withInput (b :: r) w)
      = ((EntryFlagUndef, Some ErrEntryFlagNoSuchType), withInput r w))
  /\ DecodeEntryFlag (withInput [] w) = ((EntryFlagUndef, Some EOF), withInput [] w).
Proof.
  split; [|split; [|reflexivity]].
  - intros [<-|[<-|[<-|[]]]]; reflexivity.
  - intros Hnot. unfold DecodeEntryFlag, withInput; cbn [input].
    rewrite !byte_eqb_neq; [reflexivity|..];
      intros ->; apply Hnot; cbn; tauto.
Qed.

Lemma DecodeEntryFlag_three_flags_witness :
  DecodeEntryFlag (withInput [xfe; x00] (start []))
  = ((xfe, None), withInput [x00] (start []))
  /\ DecodeEntryFlag (withInput [xff; x00] (start []))
     = ((EntryFlagUndef, Some ErrEntryFlagNoSuchType), withInput [x00] (start [])).
Proof.
  split.
  - apply (DecodeEntryFlag_three_flags xfe [x00] (start [])). cbn. tauto.
  - apply (DecodeEntryFlag_three_flags xff [x00] (start [])).
    cbn. intros [E|[E|[E|[]]]]; discriminate E.
Defined.

(** X16. [DecodeEntryValueAndType] is [DecodeEntryType] followed by
    [DecodeEntryValue] on the tag read: it returns the result of the
    latter together with the tag, also when the value fails to decode; if
    the tag cannot be read it returns the read error with
    [EntryTypeUndef]. *)
Theorem DecodeEntryValueAndType_composes (w : World) :
  DecodeEntryValueAndType w
  = match DecodeEntryType w with
    | ((entryType, None), w1) =>
        ((DecodeEntryValue entryType w1).1, entryType,
         (DecodeEntryValue entryType w1).2)
    | ((entryType, Some readErr), w1) => ((Err readErr, entryType), w1)
    end.
Proof.
  unfold DecodeEntryValueAndType, DecodeEntryType.
  destruct (input w) as [|t r]; [reflexivity|].
  now destruct (DecodeEntryValue t _).
Qed.

(** X17. When [DecodeEntryValue] succeeds, the dynamic type of the value it
    returns is the one the tag names: a pointer to [ValueBoolean] for 0x00,
    to [ValueDouble] for 0x01, to [ValueString] for 0x02, to [ValueRaw] for
    0x03, and the three array types for 0x10, 0x11 and 0x12; it never
    returns the nil interface with a nil error. *)
Theorem DecodeEntryValue_dynamic_type (t : EntryType) (w w' : World)
    (ev : EntryValue) :
  DecodeEntryValue t w = (Ok ev, w') -> dynamicType ev = t.
Proof.
  unfold DecodeEntryValue.
  repeat match goal with
         | |- context [Byte.eqb t ?c] =>
             let E := fresh "E" in
             destruct (Byte.eqb t c) eqn:E;
             [apply byte_eqb_eq in E; subst t|]
         end;
    intros Hdec; try discriminate Hdec;
    first [ apply onBooleans_inv in Hdec as (s & Hdec & _)
          | apply onDoubles_inv in Hdec as (s & Hdec & _)
          | apply onStrings_inv in Hdec as (s & Hdec & _)
          | apply onRaws_inv in Hdec as (s & Hdec & _) ];
    apply bind_Ok_inv in Hdec as (x & s1 & _ & [= <- _]); reflexivity.
Qed.

Lemma DecodeEntryValue_dynamic_type_witness :
  dynamicType (IsString (Addr 0)) = EntryTypeString.
Proof.
  apply (DecodeEntryValue_dynamic_type EntryTypeString (start [x01; "a"]%byte)
           (mkWorld [] [] [] [mkValueString "a" [x01; "a"]%byte] [])).
  reflexivity.
Defined.

(** ** What decoding and encoding never do *)

Section Advances.
Context {T : Type}.

Lemma advances_ret {A} (a : A) : advances (T := T) (ret a).
Proof.
  intros s. cbn. split; [discriminate|].
  split; [now exists []|exists []; now rewrite app_nil_r].
Qed.

Lemma advances_fail {A} (e : error) : advances (T := T) (A := A) (fail e).
Proof.
  intros s. cbn. split; [discriminate|].
  split; [now exists []|exists []; now rewrite app_nil_r].
Qed.

Lemma advances_bind {A B} (m : M T A) (k : A -> M T B) :
  advances m -> (forall a, advances (k a)) -> advances (bind m k).
Proof.
  intros Hm Hk s. destruct (Hm s) as (Hp & [c Hc] & [x Hx]). unfold bind.
  destruct (m s) as [[a| |] s1]; cbn [fst snd] in *.
  - destruct (Hk a s1) as (Hp' & [c' Hc'] & [x' Hx']).
    split; [assumption|]. split.
    + exists (c ++ c'). now rewrite Hc, Hc', app_assoc.
    + exists (x ++ x'). now rewrite Hx', Hx, app_assoc.
  - split; [discriminate|]. split; [now exists c|now exists x].
  - contradiction.
Qed.

Lemma advances_ReadFull n : advances (T := T) (ReadFull n).
Proof.
  intros s. unfold ReadFull.
  destruct (Nat.eqb n 0); [apply (advances_ret [] s)|].
  destruct (Nat.eqb (length (rd s)) 0); [apply (advances_fail (A := list byte) EOF s)|].
  destruct (Nat.ltb (length (rd s)) n); cbn [fst snd rd mem].
  - split; [discriminate|]. split.
    + exists (rd s). now rewrite app_nil_r.
    + exists []. now rewrite app_nil_r.
  - split; [discriminate|]. split.
    + exists (take n (rd s)). now rewrite take_drop.
    + exists []. now rewrite app_nil_r.
Qed.

Lemma advances_alloc (v : T) : advances (alloc v).
Proof.
  intros s. cbn. split; [discriminate|]. split; [now exists []|now exists [v]].
Qed.

Lemma decodeLoop_advances r : forall acc shift saved,
  (decodeLoop r acc shift saved).1 <> Panic
  /\ exists consumed, r = consumed ++ (decodeLoop r acc shift saved).2.
Proof.
  induction r as [|b r IH]; intros acc shift saved; cbn [decodeLoop].
  - split; [discriminate|]. now exists [].
  - destruct (N.eqb (N.land (Byte.to_N b) 128) 0); cbn [fst snd].
    + split; [discriminate|]. now exists [b].
    + destruct (IH (uint32 (N.lor acc (N.shiftl (N.land (Byte.to_N b) 127) shift)))
                  (shift + 7)%N (saved ++ [b])) as [Hp [c Hc]].
      split; [assumption|]. exists (b :: c). cbn [app]. now rewrite <- Hc.
Qed.

Lemma advances_DecodeAndSaveULEB128 : advances (T := T) DecodeAndSaveULEB128.
Proof.
  intros s. unfold DecodeAndSaveULEB128.
  destruct (decodeLoop_advances (rd s) 0 0 []) as [Hp [c Hc]].
  destruct (decodeLoop (rd s) 0 0 []) as [o r1]; cbn [fst snd rd mem] in *.
  split; [assumption|]. split; [now exists c|exists []; now rewrite app_nil_r].
Qed.

Lemma advances_decodeSeq (Decode : M T ptr) n :
  advances Decode -> advances (decodeSeq Decode n).
Proof.
  intros HD. induction n as [|n IH]; cbn [decodeSeq]; [apply advances_ret|].
  apply advances_bind; [assumption|]. intros e.
  apply advances_bind; [assumption|]. intros es. apply advances_ret.
Qed.

Lemma advances_DecodeArray `{Struct T} `{HasRaw T} (Decode : M T ptr) :
  advances Decode -> advances (DecodeArray Decode).
Proof.
  intros HD [[|b r] m].
  - rewrite DecodeArray_nil. apply (advances_fail (A := ValueArray T) EOF).
  - rewrite DecodeArray_cons.
    assert (Hseq : advances (es <- decodeSeq Decode (Byte.to_nat b) ;;
                             ret (mkValueArray (T := T) es))).
    { apply advances_bind; [now apply advances_decodeSeq|].
      intros es. apply advances_ret. }
    destruct (Hseq (mkState r m)) as (Hp & [c Hc] & Hx). cbn [rd mem] in *.
    split; [assumption|]. split; [|assumption].
    exists (b :: c). cbn [app]. now rewrite <- Hc.
Qed.

Lemma getRaw_scalar_pure (p : ptr) (f : T -> list byte) (s : State T) :
  ((v <- load p ;; ret (f v)) s).2 = s.
Proof.
  unfold bind. rewrite load_deref. now destruct (deref (mem s) p).
Qed.
End Advances.

Lemma advances_DecodeBoolean : advances DecodeBoolean.
Proof.
  intros [[|b r] m].
  - rewrite DecodeBoolean_nil. apply (advances_fail (A := ptr) EOF).
  - rewrite DecodeBoolean_cons.
    destruct (Byte.eqb b BoolFalse); [|destruct (Byte.eqb b BoolTrue)];
      cbn [fst snd rd mem]; (split; [discriminate|]);
      (split; [now exists [b]|now eexists]).
Qed.

Lemma advances_DecodeDouble : advances DecodeDouble.
Proof.
  apply advances_bind; [apply advances_ReadFull|]. intros d. apply advances_alloc.
Qed.

Lemma advances_DecodeString : advances DecodeString.
Proof.
  apply advances_bind; [apply advances_DecodeAndSaveULEB128|]. intros [n u].
  apply advances_bind; [apply advances_ReadFull|]. intros d. apply advances_alloc.
Qed.

Lemma advances_DecodeRaw : advances DecodeRaw.
Proof.
  apply advances_bind; [apply advances_DecodeAndSaveULEB128|]. intros [n u].
  apply advances_bind; [apply advances_ReadFull|]. intros d. apply advances_alloc.
Qed.

Lemma extends_refl w : extends w w.
Proof.
  split; [now exists []|].
  repeat split; exists []; now rewrite app_nil_r.
Qed.

Lemma onBooleans_extends {A} (m : M ValueBoolean A) w :
  advances m ->
  (onBooleans m w).1 <> Panic /\ extends w (onBooleans m w).2.
Proof.
  intros Hm. unfold onBooleans.
  destruct (Hm (mkState (input w) (booleans w))) as (Hp & Hc & Hx).
  destruct (m _) as [o s]; cbn [fst snd rd mem] in *.
  split; [assumption|]. split; [assumption|]. cbn.
  split; [assumption|]. repeat split; exists []; now rewrite app_nil_r.
Qed.

Lemma onDoubles_extends {A} (m : M ValueDouble A) w :
  advances m ->
  (onDoubles m w).1 <> Panic /\ extends w (onDoubles m w).2.
Proof.
  intros Hm. unfold onDoubles.
  destruct (Hm (mkState (input w) (doubles w))) as (Hp & Hc & Hx).
  destruct (m _) as [o s]; cbn [fst snd rd mem] in *.
  split; [assumption|]. split; [assumption|]. cbn.
  split; [exists []; now rewrite app_nil_r|]. split; [assumption|].
  split; exists []; now rewrite app_nil_r.
Qed.

Lemma onStrings_extends {A} (m : M ValueString A) w :
  advances m ->
  (onStrings m w).1 <> Panic /\ extends w (onStrings m w).2.
Proof.
  intros Hm. unfold onStrings.
  destruct (Hm (mkState (input w) (strings w))) as (Hp & Hc & Hx).
  destruct (m _) as [o s]; cbn [fst snd rd mem] in *.
  split; [assumption|]. split; [assumption|]. cbn.
  split; [exists []; now rewrite app_nil_r|].
  split; [exists []; now rewrite app_nil_r|]. split; [assumption|].
  exists []; now rewrite app_nil_r.
Qed.

Lemma onRaws_extends {A} (m : M ValueRaw A) w :
  advances m ->
  (onRaws m w).1 <> Panic /\ extends w (onRaws m w).2.
Proof.
  intros Hm. unfold onRaws.
  destruct (Hm (mkState (input w) (raws w))) as (Hp & Hc & Hx).
  destruct (m _) as [o s]; cbn [fst snd rd mem] in *.
  split; [assumption|]. split; [assumption|]. cbn.
  split; [exists []; now rewrite app_nil_r|].
  split; [exists []; now rewrite app_nil_r|].
  split; [exists []; now rewrite app_nil_r|assumption].
Qed.

(** X18. On every tag and every reader, [DecodeEntryValue] ends without a
    panic, with a value or an error; it consumes bytes from the front of
    the reader only, and it only allocates: every struct that existed
    before, of any of the four types, is at its address with its contents
    afterwards, also when decoding fails midway. *)
Theorem DecodeEntryValue_only_allocates (t : EntryType) (w : World) :
  (DecodeEntryValue t w).1 <> Panic /\ extends w (DecodeEntryValue t w).2.
Proof.
  unfold DecodeEntryValue.
  repeat match goal with
         | |- context [if ?c then _ else _] => destruct c
         end.
  - apply onBooleans_extends, advances_bind; [apply advances_DecodeBoolean|].
    intros p. apply advances_ret.
  - apply onDoubles_extends, advances_bind; [apply advances_DecodeDouble|].
    intros p. apply advances_ret.
  - apply onStrings_extends, advances_bind; [apply advances_DecodeString|].
    intros p. apply advances_ret.
  - apply onRaws_extends, advances_bind; [apply advances_DecodeRaw|].
    intros p. apply advances_ret.
  - apply onBooleans_extends, advances_bind;
      [apply advances_DecodeArray, advances_DecodeBoolean|].
    intros p. apply advances_ret.
  - apply onDoubles_extends, advances_bind;
      [apply advances_DecodeArray, advances_DecodeDouble|].
    intros p. apply advances_ret.
  - apply onStrings_extends, advances_bind;
      [apply advances_DecodeArray, advances_DecodeString|].
    intros p. apply advances_ret.
  - cbn. split; [discriminate|apply extends_refl].
Qed.

(** X19. [GetRaw] only reads: whatever the value, an array or a scalar,
    and whatever it returns, no struct is changed or allocated and the
    reader is not touched. *)
Theorem GetRaw_reads_only (value : EntryValue) (w : World) :
  (GetRaw value w).2 = w.
Proof.
  destruct w as [r bs ds ss rs].
  destruct value as [|p|p|p|p|a|a|a]; cbn [GetRaw]; [reflexivity|..];
    unfold onBooleans, onDoubles, onStrings, onRaws;
    cbn [input booleans doubles strings raws].
  - pose proof (getRaw_scalar_pure p BooleanRawValue (mkState r bs)) as Hp.
    fold (ValueBoolean_GetRaw p) in Hp.
    destruct (ValueBoolean_GetRaw p _) as [o s]. cbn [snd] in *. now subst s.
  - pose proof (getRaw_scalar_pure p DoubleRawValue (mkState r ds)) as Hp.
    fold (ValueDouble_GetRaw p) in Hp.
    destruct (ValueDouble_GetRaw p _) as [o s]. cbn [snd] in *. now subst s.
  - pose proof (getRaw_scalar_pure p StringRawValue (mkState r ss)) as Hp.
    fold (ValueString_GetRaw p) in Hp.
    destruct (ValueString_GetRaw p _) as [o s]. cbn [snd] in *. now subst s.
  - pose proof (getRaw_scalar_pure p RawRawValue (mkState r rs)) as Hp.
    fold (ValueRaw_GetRaw p) in Hp.
    destruct (ValueRaw_GetRaw p _) as [o s]. cbn [snd] in *. now subst s.
  - pose proof (ArrayGetRaw_pure a (mkState r bs)) as Hp.
    fold (ValueBooleanArray_GetRaw a) in Hp.
    destruct (ValueBooleanArray_GetRaw a _) as [o s]. cbn [snd] in *. now subst s.
  - pose proof (ArrayGetRaw_pure a (mkState r ds)) as Hp.
    fold (ValueDoubleArray_GetRaw a) in Hp.
    destruct (ValueDoubleArray_GetRaw a _) as [o s]. cbn [snd] in *. now subst s.
  - pose proof (ArrayGetRaw_pure a (mkState r ss)) as Hp.
    fold (ValueStringArray_GetRaw a) in Hp.
    destruct (ValueStringArray_GetRaw a _) as [o s]. cbn [snd] in *. now subst s.
Qed.

(** ** Arrays hold references *)

Lemma deref_after_update {T} (m : list T) a x extra p v :
  p <> Addr a ->
  deref m p = Some v ->
  deref (<[a := x]> m ++ extra) p = Some v.
Proof.
  intros Hne Hv. destruct p as [|a']; [discriminate|]. cbn [deref] in *.
  rewrite lookup_app_l by (rewrite length_insert; eauto using lookup_lt_Some).
  rewrite list_lookup_insert_ne by congruence. exact Hv.
Qed.

Lemma derefs_after_update {T} (m : list T) a x extra elems vs :
  Forall2 (fun p v => deref m p = Some v) elems vs ->
  ~ In (Addr a) elems ->
  Forall2 (fun p v => deref (<[a := x]> m ++ extra) p = Some v) elems vs.
Proof.
  induction 1 as [|p v elems vs Hp _ IH]; intros Hnotin; constructor.
  - apply deref_after_update; [|exact Hp]. intros ->. apply Hnotin. now left.
  - apply IH. intros Hin. apply Hnotin. now right.
Qed.

(** X20. [Add] stores the pointer it is given, not a copy of the struct:
    after a [ValueBoolean] has been added to an array of fewer than 255
    elements that did not hold it, an [UpdateValue] made through the
    pointer shows in the array, whose [GetRaw] ends with the new wire byte
    of the value; the bytes of the other elements are as before. *)
Theorem Add_shares_the_struct (array : ValueBooleanArray) (a : nat)
    (m vs : list ValueBoolean) (d : ValueBoolean) (value : bool) (r : Reader) :
  length (elements array) < 255 ->
  Forall2 (fun p v => deref m p = Some v) (elements array) vs ->
  ~ In (Addr a) (elements array) ->
  m !! a = Some d ->
  exists array' s',
    ValueBooleanArray_Add array (IsBoolean (Addr a)) = (Ok tt, array')
    /\ ValueBoolean_UpdateValue (Addr a) value (mkState r m) = (Ok tt, s')
    /\ ValueBooleanArray_GetRaw array' (mkState r m)
       = (Ok (byte_of_nat (S (length (elements array)))
              :: concat (map BooleanRawValue vs) ++ BooleanRawValue d),
          mkState r m)
    /\ ValueBooleanArray_GetRaw array' s'
       = (Ok (byte_of_nat (S (length (elements array)))
              :: concat (map BooleanRawValue vs)
                 ++ (if value then [BoolTrue] else [BoolFalse])),
          s').
Proof.
  intros Hlen Hall Hnotin Hd.
  exists (mkValueArray (elements array ++ [Addr a])). eexists.
  split; [now apply ArrayAdd_appends; [|lia]|].
  split.
  { unfold ValueBoolean_UpdateValue.
    apply (make_then_merge _ a d _ r (mkState r m) Hd eq_refl). }
  split.
  - unfold ValueBooleanArray_GetRaw.
    rewrite (ArrayGetRaw_spec _ (vs ++ [d])).
    + rewrite length_app, map_app, concat_app. cbn [length map concat].
      now rewrite Nat.add_1_r, app_nil_r.
    + apply Forall2_app; [assumption|]. now repeat constructor.
    + rewrite length_app. cbn. lia.
  - unfold ValueBooleanArray_GetRaw. cbn [mem].
    rewrite (ArrayGetRaw_spec _
               (vs ++ [deepMerge true d
                         (mkValueBoolean value
                            (if value then [BoolTrue] else [BoolFalse]))])).
    + rewrite length_app, map_app, concat_app. cbn [length map concat].
      rewrite Nat.add_1_r, app_nil_r.
      rewrite deepMerge_ValueBoolean by (now destruct value). reflexivity.
    + apply Forall2_app.
      * now apply derefs_after_update.
      * repeat constructor. cbn [deref].
        rewrite lookup_app_l by (rewrite length_insert; eauto using lookup_lt_Some).
        apply list_lookup_insert_eq. eauto using lookup_lt_Some.
    + rewrite length_app. cbn. lia.
Qed.

Lemma Add_shares_the_struct_witness :
  let m := [mkValueBoolean true [x01]; mkValueBoolean false [x00]] in
  exists array' s',
    ValueBooleanArray_Add (mkValueArray [Addr 0]) (IsBoolean (Addr 1)) = (Ok tt, array')
    /\ ValueBoolean_UpdateValue (Addr 1) true (mkState [] m) = (Ok tt, s')
    /\ ValueBooleanArray_GetRaw array' (mkState [] m)
       = (Ok (byte_of_nat 2
              :: concat (map BooleanRawValue [mkValueBoolean true [x01]])
                 ++ BooleanRawValue (mkValueBoolean false [x00])),
          mkState [] m)
    /\ ValueBooleanArray_GetRaw array' s'
       = (Ok (byte_of_nat 2
              :: concat (map BooleanRawValue [mkValueBoolean true [x01]])
                 ++ [BoolTrue]),
          s').
Proof.
  intros m.
  apply (Add_shares_the_struct (mkValueArray [Addr 0]) 1 m
           [mkValueBoolean true [x01]] (mkValueBoolean false [x00]) true []).
  - cbn. lia.
  - repeat constructor.
  - cbn. intros [E|[]]. discriminate E.
  - reflexivity.
Defined.
